(** * Promise enhancements: the sequencing, retry and first-success combinators

    A shallow embedding of [enhancement.js] (the revision whose static
    [Promise.sync] takes a seed value and whose retry callable receives the
    number of remaining attempts), together with the properties of
    [Promise.sync], [Promise.prototype.sync], [Promise.retry] and
    [Promise.firstSuccess].

    Conventions of the embedding:
    - JavaScript values are the inductive type [Value]; numbers are the
      integer-valued ones (a [Z]), which is all the library computes with
      ([ret.length], [idx - 1], [times - 1]).  The arithmetic here is that
      of [Z]; it is the arithmetic of the code, which is on doubles, for
      the integers up to [exact_limit], and the statements about the value
      of the count of attempts are made under that bound.  A count that is
      not an integer, such as [1.5], is not a value of the model.
    - A promise that has been awaited is represented by how it settled, an
      [Outcome]; [await] of a rejected promise throws its reason.
    - Code that the caller supplies (tasks, callbacks, the retried function)
      is a transformer of the [World]: the caller's own state, the console
      and the store of option objects.  Objects live in the store and are
      passed by location, so that two uses of one object alias.
    - Every call of caller-supplied code and every timer wait leaves an
      [Event]; the events of a run are returned in the order they happened.
    - The sequencer and the retry engine are run on computations that
      settle; a promise that stays pending appears only in the model of
      [Promise.firstSuccess], whose result depends on the order in which
      its inputs settle.
    - The text of a [TypeError] raised by the platform is the engine's own;
      the texts here stand for it, the language fixing only that a
      [TypeError] is thrown.
    - The options of the retry engine are given by a location of the
      store: an object, or, where nothing is stored, [undefined] or [null].
      Options that are a number or a string are not in the model. *)

From stdpp Require Import gmap strings list fin_maps pretty.

(** ** JavaScript values *)

#[warnings="-register-all"]
Inductive Value : Type :=
| VUndefined
| VNull
| VBool (b : bool)
| VNum (n : Z)
| VStr (s : string)
| VError (name message : string)
| VArray (elems : list Value).

(** Up to this bound every integer is a number of JavaScript and taking
    [1] from it is exact; further up the subtraction of the code rounds
    (from [2 ^ 53 + 2] it gives [2 ^ 53], and [2 ^ 54] it leaves as it
    is). *)
Definition exact_limit : Z := 2 ^ 53.

(** The line feed of the template literals. *)
Definition LF : string := String (Ascii.ascii_of_nat 10) EmptyString.

(** [String(v)].  For an array this is [join(',')], in which [undefined]
    and [null] elements read as the empty string; for an error object it is
    [Error.prototype.toString].  A number is written with all its digits,
    as [String] does below [10 ^ 21]; from there on [String] writes an
    exponent, which is not modelled. *)
Fixpoint ToString (v : Value) : string :=
  match v with
  | VUndefined => "undefined"
  | VNull => "null"
  | VBool true => "true"
  | VBool false => "false"
  | VNum n => pretty n
  | VStr s => s
  | VError name message =>
      if decide (message = "") then name
      else if decide (name = "") then message
      else name +:+ ": " +:+ message
  | VArray elems =>
      String.concat ","
        (map (fun x => match x with
                       | VUndefined | VNull => ""
                       | _ => ToString x
                       end) elems)
  end.

Definition join_element (v : Value) : string :=
  match v with
  | VUndefined | VNull => ""
  | _ => ToString v
  end.

(** [arr.join(sep)] *)
Definition join (sep : string) (arr : list Value) : string :=
  String.concat sep (map join_element arr).

(** [arr[i]]: reading outside the array, and in particular at [-1], gives
    [undefined]. *)
Definition index (arr : list Value) (i : Z) : Value :=
  if bool_decide (0 ≤ i)%Z then default VUndefined (arr !! Z.to_nat i)
  else VUndefined.

(** The n-th actual argument of a call; a missing argument is [undefined]. *)
Definition arg (n : nat) (args : list Value) : Value :=
  default VUndefined (args !! n).

(** How a promise settles. *)
Inductive Outcome : Type :=
| Fulfilled (value : Value)
| Rejected (reason : Value).

(** ** Option objects *)

(** [Partial<RetryOptions>]: a field that is absent reads as [undefined],
    here [None]. *)
Record RetryOptions : Type := mkOptions {
  times : option Z;
  delay : option Z;
  printErrors : option bool;
  errorPrefix : option string;
}.

Definition set_times (t : Z) (o : RetryOptions) : RetryOptions :=
  {| times := Some t; delay := delay o;
     printErrors := printErrors o; errorPrefix := errorPrefix o |}.

(** ** Worlds, events and asynchronous computations *)

Inductive Event : Type :=
| EvCall (args : list Value) (result : Outcome)
| EvSleep (ms : Z).

Definition is_call (e : Event) : bool :=
  match e with EvCall _ _ => true | EvSleep _ => false end.

Definition is_sleep (e : Event) : bool :=
  match e with EvSleep _ => true | EvCall _ _ => false end.

(** A call that failed, and a call that returned. *)
Definition is_failed_call (e : Event) : bool :=
  match e with EvCall _ (Rejected _) => true | _ => false end.

Definition is_successful_call (e : Event) : bool :=
  match e with EvCall _ (Fulfilled _) => true | _ => false end.

Section Engine.
Context {St : Type}.

(** What caller-supplied code can read and write. *)
Record World : Type := mkWorld {
  heap : gmap positive RetryOptions;
  console : list (string * Value);
  user : St;
}.

(** A function supplied by the caller, applied to its actual arguments:
    it returns or throws, or returns a promise that is then awaited. *)
Definition UserFn : Type := list Value → World → Outcome * World.

(** An asynchronous computation: its result, the world it leaves and the
    events it produced. *)
Definition Async (A : Type) : Type := World → A * World * list Event.

(** A function value as the library sees it. *)
Definition Callable : Type := list Value → Async Outcome.

(** Calling caller-supplied code is recorded. *)
Definition invoke (f : UserFn) : Callable :=
  fun args w => let '(o, w') := f args w in (o, w', [EvCall args o]).

Definition settle (o : Outcome) : Async Outcome := fun w => (o, w, []).

(** [const x = await c; k(x)] in the body of an async function that has
    no handler around it: a rejection of [c] rejects the function. *)
Definition await_then (c : Async Outcome) (k : Value → Async Outcome)
  : Async Outcome :=
  fun w =>
    let '(o, w1, ev1) := c w in
    match o with
    | Fulfilled x => let '(r, w2, ev2) := k x w1 in (r, w2, ev1 ++ ev2)
    | Rejected e => (Rejected e, w1, ev1)
    end.

(** [sleep(t)] *)
Definition sleep (t : Z) : Async unit := fun w => (tt, w, [EvSleep t]).

(** [console.error(text, e)] *)
Definition console_error (text : string) (e : Value) (w : World) : World :=
  {| heap := heap w; console := console w ++ [(text, e)]; user := user w |}.

(** [Object.assign(options, {times: t})]: writes the field of the object
    at [options] and gives back the same object. *)
Definition assign_times (options : positive) (t : Z) (w : World) : World :=
  {| heap := alter (set_times t) options (heap w);
     console := console w; user := user w |}.

(** ** [Promise.sync] *)

(** An element of the task list: a function, a promise (modelled by the
    way it settles) or any other value. *)
Inductive TaskSource : Type :=
| TFun (f : Callable)
| TPromise (o : Outcome)
| TValue (v : Value).

(** One turn of the loop of [Promise.sync], up to the [await]: with
    [idx = ret.length], a function is called as [task(seedValue, idx)]
    when [idx < 0] and as [task(ret[idx-1], idx)] otherwise; anything else
    is awaited as it is. *)
Definition run_task (task : TaskSource) (seedValue : Value)
    (ret : list Value) : Async Outcome :=
  let idx := Z.of_nat (length ret) in
  match task with
  | TFun f =>
      if bool_decide (idx < 0)%Z
      then f [seedValue; VNum idx]
      else f [index ret (idx - 1); VNum idx]
  | TPromise o => settle o
  | TValue v => settle (Fulfilled v)
  end.

(** The [for] loop of [Promise.sync]; [ret] is the local array, to which
    each awaited value is pushed. *)
Fixpoint sync_loop (tasks : list TaskSource) (seedValue : Value)
    (ret : list Value) : Async Outcome :=
  match tasks with
  | [] => settle (Fulfilled (VArray ret))
  | task :: rest =>
      await_then (run_task task seedValue ret)
        (fun value => sync_loop rest seedValue (ret ++ [value]))
  end.

Definition Promise_sync (tasks : list TaskSource) (seedValue : Value)
  : Async Outcome :=
  sync_loop tasks seedValue [].

(** ** [Promise.prototype.sync] *)

(** [inp => (last, i) => callback(inp, i, last)] *)
Definition sync_task (callback : Callable) (inp : Value) : TaskSource :=
  TFun (fun args => callback [inp; arg 1 args; arg 0 args]).

(** [this] is given by the way the receiving promise settles. *)
Definition Promise_prototype_sync (this : Outcome) (callback : Callable)
  : Async Outcome :=
  await_then (settle this)
    (fun arr =>
       match arr with
       | VArray elems => Promise_sync (map (sync_task callback) elems) VUndefined
       | _ => callback [arr; VNum 0]
       end).

(** ** [Promise.retry] *)

(** A settled call of [Promise.retry]: the outcome, the contents of the
    [_collectedErrors] array at that point (internal to the recursion; the
    caller sees the outcome only), the world left behind and the events. *)
Record RetryRun : Type := mkRun {
  outcome : Outcome;
  collected : list Value;
  final : World;
  events : list Event;
}.

Definition after (evs : list Event) (r : RetryRun) : RetryRun :=
  {| outcome := outcome r; collected := collected r;
     final := final r; events := evs ++ events r |}.

(** The message of the error thrown when no attempt is left. *)
Definition exhausted_message (errorPrefix : string) (errs : list Value)
  : string :=
  errorPrefix +:+ "Exhausted retry loops:" +:+ LF +:+ join LF errs.

(** The body of [Promise.retry].  [options] is the location of the options
    object; where nothing is stored the argument is [undefined] or [null],
    and destructuring it throws.  The recursion is bounded by [fuel];
    [None] means the bound was reached.  [times - 1] is exact here, as it
    is in the code for a count up to [exact_limit]. *)
Fixpoint retry (fuel : nat) (fn : Callable) (options : positive)
    (_collectedErrors : list Value) (w : World) : option RetryRun :=
  match fuel with
  | O => None
  | S fuel' =>
      match heap w !! options with
      | None =>
          Some (mkRun
                  (Rejected (VError "TypeError"
                     "Cannot destructure property 'times' of 'options' as it is undefined."))
                  _collectedErrors w [])
      | Some o =>
          let times := default 1%Z (times o) in
          let delay := default 500%Z (delay o) in
          let printErrors := default false (printErrors o) in
          let errorPrefix := default "" (errorPrefix o) in
          if bool_decide (times ≤ 0)%Z then
            Some (mkRun
                    (Rejected (VError "Error"
                       (exhausted_message errorPrefix _collectedErrors)))
                    _collectedErrors w [])
          else
            let '(out, w1, ev1) := fn [VNum times] w in
            match out with
            | Fulfilled v => Some (mkRun (Fulfilled v) _collectedErrors w1 ev1)
            | Rejected e =>
                let w2 :=
                  if printErrors
                  then console_error (errorPrefix +:+ "Retry loop failed:") e w1
                  else w1 in
                let errs := _collectedErrors ++ [e] in
                let '(_, w3, ev2) := sleep delay w2 in
                after (ev1 ++ ev2)
                  <$> retry fuel' fn options errs
                        (assign_times options (times - 1) w3)
            end
      end
  end.

(** The [times] that a call on [options] starts from; no attempt is made
    when [options] is [undefined] or [null]. *)
Definition remaining (options : positive) (w : World) : Z :=
  match heap w !! options with
  | Some o => default 1%Z (times o)
  | None => 0%Z
  end.

(** [Promise.retry(fn, options)]: the third parameter takes its default,
    a new empty array.  One level of the recursion per attempt and one
    more for the final test of [times]. *)
Definition Promise_retry (fn : Callable) (options : positive) (w : World)
  : option RetryRun :=
  retry (S (Z.to_nat (remaining options w))) fn options [] w.

End Engine.

Arguments World : clear implicits.
Arguments UserFn : clear implicits.
Arguments Async : clear implicits.
Arguments Callable : clear implicits.
Arguments TaskSource : clear implicits.
Arguments RetryRun : clear implicits.

(** ** [Promise.firstSuccess] *)

(** The [this] value that a static function of [Promise] is called with:
    [Promise.all(x)] has the constructor as receiver, whereas a function
    taken out of it, as in [const {all} = Promise; all(x)], has none. *)
Inductive Receiver : Type :=
| ThisPromise
| ThisUndefined.

Inductive Completion (A : Type) : Type :=
| Normal (a : A)
| Throw (e : Value).
Arguments Normal {A} a.
Arguments Throw {A} e.

(** The first steps of [Promise.all], [Promise.resolve] and
    [Promise.reject] (ECMAScript, NewPromiseCapability): a receiver that is
    not a constructor is a [TypeError]. *)
Definition NewPromiseCapability (C : Receiver) (who : string)
  : Completion unit :=
  match C with
  | ThisPromise => Normal tt
  | ThisUndefined => Throw (VError "TypeError" (who +:+ " called on non-object"))
  end.

(** [resolve(v)] and [reject(v)] with receiver [C]; the values of the model
    are not thenables, so that [resolve(v)] is fulfilled with [v]. *)
Definition static_resolve (C : Receiver) (v : Value) : Completion Outcome :=
  match NewPromiseCapability C "PromiseResolve" with
  | Throw e => Throw e
  | Normal _ => Normal (Fulfilled v)
  end.

Definition static_reject (C : Receiver) (v : Value) : Completion Outcome :=
  match NewPromiseCapability C "PromiseReject" with
  | Throw e => Throw e
  | Normal _ => Normal (Rejected v)
  end.

(** [p.then(onFulfilled, onRejected)] once [p] has settled: the promise
    returned by the handler is adopted, and a handler that throws rejects. *)
Definition then_ (p : Outcome)
    (onFulfilled onRejected : Value → Completion Outcome) : Outcome :=
  match
    match p with
    | Fulfilled v => onFulfilled v
    | Rejected e => onRejected e
    end
  with
  | Normal o => o
  | Throw e => Rejected e
  end.

(** The bookkeeping of [Promise.all] over [n] promises: the values received
    so far by index, the number of promises still awaited, and the state of
    the promise it returned. *)
Record AllState : Type := mkAll {
  slots : list (option Value);
  awaited : nat;
  joined : option Outcome;
}.

Definition all_start (n : nat) : AllState :=
  {| slots := replicate n None; awaited := n;
     joined := match n with
               | O => Some (Fulfilled (VArray []))
               | S _ => None
               end |}.

(** The reaction of [Promise.all] when its element [i] settles as [o]. *)
Definition all_react (i : nat) (o : Outcome) (s : AllState) : AllState :=
  match o with
  | Rejected e =>
      {| slots := slots s; awaited := awaited s;
         joined := Some (default (Rejected e) (joined s)) |}
  | Fulfilled x =>
      let vs := <[i := Some x]> (slots s) in
      let n := pred (awaited s) in
      {| slots := vs; awaited := n;
         joined := match joined s with
                   | Some o' => Some o'
                   | None =>
                       match n with
                       | O => Some (Fulfilled (VArray (omap id vs)))
                       | S _ => None
                       end
                   end |}
  end.

(** Element [i] of [ps] settles. *)
Definition all_settle (ps : list Outcome) (s : AllState) (i : nat) : AllState :=
  match ps !! i with
  | Some o => all_react i o s
  | None => s
  end.

(** [order] lists the indices of the elements in the order in which they
    settle; an element that is not listed stays pending. *)
Definition all_run (ps : list Outcome) (order : list nat) : option Outcome :=
  joined (foldl (all_settle ps) (all_start (length ps)) order).

Definition static_all (C : Receiver) (ps : list Outcome) (order : list nat)
  : Completion (option Outcome) :=
  match NewPromiseCapability C "Promise.all" with
  | Throw e => Throw e
  | Normal _ => Normal (all_run ps order)
  end.

(** [p.then(val => reject(val), err => resolve(err))], where [reject] and
    [resolve] are called with receiver [C]: success and failure change
    places. *)
Definition swap_outcome (C : Receiver) (p : Outcome) : Outcome :=
  then_ p (fun val => static_reject C val) (fun err => static_resolve C err).

(** The body of [Promise.firstSuccess], where [all], [reject] and [resolve]
    are called with receiver [C].  [arr] gives the way each promise settles
    and [order] the order in which they do.  The result is the promise
    returned, [None] when it stays pending, unless the call throws. *)
Definition firstSuccess_on (C : Receiver) (arr : list Outcome)
    (order : list nat) : Completion (option Outcome) :=
  match static_all C (map (swap_outcome C) arr) order with
  | Throw e => Throw e
  | Normal all_settled => Normal (swap_outcome C <$> all_settled)
  end.

(** [const {all, reject, resolve} = Promise]: the three functions are taken
    out of the constructor and then called without a receiver. *)
Definition Promise_firstSuccess (arr : list Outcome) (order : list nat)
  : Completion (option Outcome) :=
  firstSuccess_on ThisUndefined arr order.

(** ** Reading the events of a run *)

(** The events of consecutive failed attempts, the first with [t] attempts
    remaining: each call is followed by one wait of [d] milliseconds. *)
Fixpoint failed_attempts (t d : Z) (errs : list Value) : list Event :=
  match errs with
  | [] => []
  | e :: errs' =>
      EvCall [VNum t] (Rejected e) :: EvSleep d :: failed_attempts (t - 1) d errs'
  end.

(** Every wait stands between a failed attempt and a further attempt. *)
Fixpoint delays_between_attempts (evs : list Event) : bool :=
  match evs with
  | [] => true
  | EvSleep _ :: _ => false
  | EvCall _ (Rejected _) :: EvSleep _ :: rest =>
      match rest with
      | EvCall _ _ :: _ => delays_between_attempts rest
      | _ => false
      end
  | EvCall _ _ :: rest => delays_between_attempts rest
  end.

(** The calls of the callback of [Promise.prototype.sync] on the elements
    [elems] that returned normally, the first with index [i]: each call
    receives the element, its index and [last], the value returned by the
    call before it; [results] are the values returned. *)
Fixpoint callback_calls (i : nat) (last : Value) (elems results : list Value)
  : list Event :=
  match elems, results with
  | x :: elems', r :: results' =>
      EvCall [x; VNum (Z.of_nat i); last] (Fulfilled r)
      :: callback_calls (S i) r elems' results'
  | _, _ => []
  end.

(** ** Callables and worlds of the examples *)

Definition with_user {St : Type} (u : St) (w : World St) : World St :=
  {| heap := heap w; console := console w; user := u |}.

(** [x => x] *)
Definition identity {St : Type} : UserFn St :=
  fun args w => (Fulfilled (arg 0 args), w).

(** [n => { throw n }] *)
Definition throws_argument {St : Type} : UserFn St :=
  fun args w => (Rejected (arg 0 args), w).

(** [worksFifthTime] of the README; the state of the caller is
    [window.count], which starts out as [0]. *)
Definition worksFifthTime : UserFn nat :=
  fun _ w =>
    let c := S (user w) in
    if bool_decide (4 < c)
    then (Fulfilled (VStr "Yay"), with_user c w)
    else (Rejected (VStr "Nay"), with_user c w).

(** A world whose only object, at location [1], is [{times: n}]. *)
Definition world_times (n : Z) : World nat :=
  {| heap := {[ 1%positive := mkOptions (Some n) None None None ]};
     console := []; user := 0 |}.

(** A world without objects. *)
Definition world_empty : World nat :=
  {| heap := ∅; console := []; user := 0 |}.

(** The value of the first promise to succeed, in the order of settlement. *)
Fixpoint first_success (arr : list Outcome) (order : list nat) : option Value :=
  match order with
  | [] => None
  | i :: rest =>
      match arr !! i with
      | Some (Fulfilled v) => Some v
      | _ => first_success arr rest
      end
  end.

(** ** Assumptions on caller-supplied code *)

(** [f] does not write to the object at [options]. *)
Definition preserves {St : Type} (options : positive) (f : UserFn St) : Prop :=
  ∀ args w, heap (f args w).2 !! options = heap w !! options.

(** A recorded call is a call of [f]: the result is what [f] gives on these
    arguments in some world. *)
Definition call_of {St : Type} (f : UserFn St) (ev : Event) : Prop :=
  match ev with
  | EvCall args out => ∃ w, (f args w).1 = out
  | EvSleep _ => True
  end.

(** ** The other chained operations *)

Section Chained.
Context {St : Type}.

(** A function whose call returns a value or throws, as the printer and
    the text function of [print]. *)
Definition SyncFn : Type :=
  list Value → World St → Completion Value * World St.

(** A function whose call is over before its result is known, as the
    callback of [map]: the call throws, or it returns what settles later
    as an outcome (a value, which is a fulfilled outcome, or a promise). *)
Definition Starter : Type :=
  list Value → World St → Completion Outcome * World St.

(** The calls of such functions are recorded as well, a call that throws
    as a rejection. *)
Definition call_sync (f : SyncFn) (args : list Value) (w : World St)
  : Completion Value * World St * list Event :=
  let '(c, w') := f args w in
  (c, w',
   [EvCall args match c with
                | Normal v => Fulfilled v
                | Throw e => Rejected e
                end]).

Definition call_start (f : Starter) (args : list Value) (w : World St)
  : Completion Outcome * World St * list Event :=
  let '(c, w') := f args w in
  (c, w',
   [EvCall args match c with
                | Normal o => o
                | Throw e => Rejected e
                end]).

(** [p.m1(..).m2(..)]: the second method has the promise returned by the
    first as its receiver. *)
Definition chain (p : Async St Outcome) (m : Outcome → Async St Outcome)
  : Async St Outcome :=
  fun w =>
    let '(o, w1, ev1) := p w in
    let '(r, w2, ev2) := m o w1 in
    (r, w2, ev1 ++ ev2).

(** ** [Promise.prototype.return], [Promise.prototype.returns] *)

(** [this.then(_ => ret)] *)
Definition Promise_prototype_returns (this : Outcome) (ret : Value)
  : Async St Outcome :=
  await_then (settle this) (fun _ => settle (Fulfilled ret)).

Definition Promise_prototype_return : Outcome → Value → Async St Outcome :=
  Promise_prototype_returns.

(** ** [Promise.prototype.sleep] *)

(** [this.then(r => sleep(time).return(r))]; the promise of [sleep] is
    fulfilled with [undefined]. *)
Definition Promise_prototype_sleep (this : Outcome) (time : Z)
  : Async St Outcome :=
  await_then (settle this)
    (fun r w =>
       let '(_, w1, ev1) := sleep time w in
       let '(o, w2, ev2) :=
         Promise_prototype_return (Fulfilled VUndefined) r w1 in
       (o, w2, ev1 ++ ev2)).

(** ** [Promise.prototype.print] *)

(** The first argument of [print]: a function, or any other value. *)
Inductive PrintText : Type :=
| TextFun (f : SyncFn)
| TextValue (v : Value).

(** [printer || Promise.printer || console.log]: an argument or a global
    that is not set is [None]; [console.log] is whatever function the
    platform has there. *)
Definition choose_printer (printer Promise_printer : option SyncFn)
    (console_log : SyncFn) : SyncFn :=
  match printer with
  | Some f => f
  | None =>
      match Promise_printer with
      | Some g => g
      | None => console_log
      end
  end.

(** [this.then(d => (printer(typeof str === 'function' ? str(d) : str), d))] *)
Definition Promise_prototype_print (this : Outcome) (str : PrintText)
    (printer Promise_printer : option SyncFn) (console_log : SyncFn)
  : Async St Outcome :=
  let printer := choose_printer printer Promise_printer console_log in
  await_then (settle this)
    (fun d w =>
       let '(text, w1, ev1) :=
         match str with
         | TextFun f => call_sync f [d] w
         | TextValue v => (Normal v, w, [])
         end in
       match text with
       | Throw e => (Rejected e, w1, ev1)
       | Normal t =>
           let '(c, w2, ev2) := call_sync printer [t] w1 in
           match c with
           | Throw e => (Rejected e, w2, ev1 ++ ev2)
           | Normal _ => (Fulfilled d, w2, ev1 ++ ev2)
           end
       end).

(** ** [Promise.prototype.map] *)

(** [arr.map(callback)], from the element of index [i] on: the callback is
    called on each element in turn with the element, its index and the
    whole array [all]; a call that throws ends the loop. *)
Fixpoint array_map (callback : Starter) (all : list Value) (i : nat)
    (elems : list Value) (w : World St)
  : Completion (list Outcome) * World St * list Event :=
  match elems with
  | [] => (Normal [], w, [])
  | x :: rest =>
      let '(c, w1, ev1) :=
        call_start callback [x; VNum (Z.of_nat i); VArray all] w in
      match c with
      | Throw e => (Throw e, w1, ev1)
      | Normal o =>
          let '(cs, w2, ev2) := array_map callback all (S i) rest w1 in
          (match cs with
           | Normal os => Normal (o :: os)
           | Throw e => Throw e
           end, w2, ev1 ++ ev2)
      end
  end.

(** The text of the warning of [map]; [stringify v] is what the template
    literal makes of [JSON.stringify(v)]. *)
Definition map_warning (stringify : Value → string) (arr : Value) : string :=
  "Argument passed to Promise.map is not an array " +:+ stringify arr
    +:+ ", will run as .then()".

(** The handler of [map] and the promise it gives: [None] is a promise
    that stays pending.  [console_warn] is the function the platform has
    at [console.warn], and [order] is the order in which the results of
    the callback settle. *)
Definition Promise_prototype_map (this : Outcome) (callback : Starter)
    (console_warn : SyncFn) (stringify : Value → string) (order : list nat)
    (w : World St) : option Outcome * World St * list Event :=
  match this with
  | Rejected e => (Some (Rejected e), w, [])
  | Fulfilled arr =>
      match arr with
      | VArray elems =>
          let '(cs, w1, ev1) := array_map callback elems 0 elems w in
          match cs with
          | Throw e => (Some (Rejected e), w1, ev1)
          | Normal os =>
              (match static_all ThisPromise os order with
               | Normal p => p
               | Throw e => Some (Rejected e)
               end, w1, ev1)
          end
      | _ =>
          let '(c, w1, ev1) :=
            call_sync console_warn [VStr (map_warning stringify arr)] w in
          match c with
          | Throw e => (Some (Rejected e), w1, ev1)
          | Normal _ =>
              let '(r, w2, ev2) := call_start callback [arr] w1 in
              (Some match r with
                    | Normal o => o
                    | Throw e => Rejected e
                    end, w2, ev1 ++ ev2)
          end
      end
  end.

(** ** [Promise.prototype.retry] *)

(** [remainingAttempts => callback(val, remainingAttempts)] *)
Definition retry_task (callback : Callable St) (val : Value) : Callable St :=
  fun args => callback [val; arg 0 args].

(** The default [{}] of the parameter [options]: a new object, at a
    location that is not in use. *)
Definition new_options (w : World St) : positive * World St :=
  let l := fresh (dom (heap w)) in
  (l, {| heap := <[l := mkOptions None None None None]> (heap w);
         console := console w; user := user w |}).

(** [options] is [None] when the argument is left out. *)
Definition Promise_prototype_retry (this : Outcome) (callback : Callable St)
    (options : option positive) (w : World St) : option (RetryRun St) :=
  let '(l, w0) :=
    match options with
    | Some l => (l, w)
    | None => new_options w
    end in
  match this with
  | Rejected e => Some (mkRun (Rejected e) [] w0 [])
  | Fulfilled val => Promise_retry (retry_task callback val) l w0
  end.

End Chained.

Arguments SyncFn : clear implicits.
Arguments Starter : clear implicits.
Arguments PrintText : clear implicits.

(** ** The earlier revision of the sequencer and of the retry engine *)

(** The file holds an earlier revision of the library as well, in which
    the tasks of [Promise.sync] receive the previous result only, the
    callback of [Promise.prototype.sync] the element only, and the function
    of [Promise.retry] nothing. *)
Module Earlier.
Section Engine.
Context {St : Type}.

(** [typeof task === 'function' ? await task(ret[ret.length-1]) : await task] *)
Definition run_task (task : TaskSource St) (ret : list Value)
  : Async St Outcome :=
  match task with
  | TFun f => f [index ret (Z.of_nat (length ret) - 1)]
  | TPromise o => settle o
  | TValue v => settle (Fulfilled v)
  end.

Fixpoint sync_loop (tasks : list (TaskSource St)) (ret : list Value)
  : Async St Outcome :=
  match tasks with
  | [] => settle (Fulfilled (VArray ret))
  | task :: rest =>
      await_then (run_task task ret)
        (fun value => sync_loop rest (ret ++ [value]))
  end.

Definition Promise_sync (tasks : list (TaskSource St)) : Async St Outcome :=
  sync_loop tasks [].

(** [inp => _ => callback(inp)] *)
Definition sync_task (callback : Callable St) (inp : Value) : TaskSource St :=
  TFun (fun _ => callback [inp]).

Definition Promise_prototype_sync (this : Outcome) (callback : Callable St)
  : Async St Outcome :=
  await_then (settle this)
    (fun arr =>
       match arr with
       | VArray elems => Promise_sync (map (sync_task callback) elems)
       | _ => callback [arr]
       end).

(** The body of [Promise.retry], in which the function is called as
    [fn()]. *)
Fixpoint retry (fuel : nat) (fn : Callable St) (options : positive)
    (_collectedErrors : list Value) (w : World St) : option (RetryRun St) :=
  match fuel with
  | O => None
  | S fuel' =>
      match heap w !! options with
      | None =>
          Some (mkRun
                  (Rejected (VError "TypeError"
                     "Cannot destructure property 'times' of 'options' as it is undefined."))
                  _collectedErrors w [])
      | Some o =>
          let times := default 1%Z (times o) in
          let delay := default 500%Z (delay o) in
          let printErrors := default false (printErrors o) in
          let errorPrefix := default "" (errorPrefix o) in
          if bool_decide (times ≤ 0)%Z then
            Some (mkRun
                    (Rejected (VError "Error"
                       (exhausted_message errorPrefix _collectedErrors)))
                    _collectedErrors w [])
          else
            let '(out, w1, ev1) := fn [] w in
            match out with
            | Fulfilled v => Some (mkRun (Fulfilled v) _collectedErrors w1 ev1)
            | Rejected e =>
                let w2 :=
                  if printErrors
                  then console_error (errorPrefix +:+ "Retry loop failed:") e w1
                  else w1 in
                let errs := _collectedErrors ++ [e] in
                let '(_, w3, ev2) := sleep delay w2 in
                after (ev1 ++ ev2)
                  <$> retry fuel' fn options errs
                        (assign_times options (times - 1) w3)
            end
      end
  end.

Definition Promise_retry (fn : Callable St) (options : positive) (w : World St)
  : option (RetryRun St) :=
  retry (S (Z.to_nat (remaining options w))) fn options [] w.

End Engine.
End Earlier.

(** ** Comparing the two revisions *)

(** A task as the caller writes it. *)
Inductive UserTask (St : Type) : Type :=
| UFun (f : UserFn St)
| UPromise (o : Outcome)
| UValue (v : Value).
Arguments UFun {St} f.
Arguments UPromise {St} o.
Arguments UValue {St} v.

Definition task_of {St : Type} (u : UserTask St) : TaskSource St :=
  match u with
  | UFun f => TFun (invoke f)
  | UPromise o => TPromise o
  | UValue v => TValue v
  end.

(** [f] looks at its first argument only. *)
Definition first_only {St : Type} (f : UserFn St) : Prop :=
  ∀ args w, f args w = f [arg 0 args] w.

(** [f] looks at no argument. *)
Definition nullary {St : Type} (f : UserFn St) : Prop :=
  ∀ args w, f args w = f [] w.

Definition uses_first_only {St : Type} (u : UserTask St) : Prop :=
  match u with
  | UFun f => first_only f
  | _ => True
  end.

(** A recorded call cut down to its first argument, and to none. *)
Definition first_argument (ev : Event) : Event :=
  match ev with
  | EvCall args o => EvCall [arg 0 args] o
  | EvSleep t => EvSleep t
  end.

Definition no_argument (ev : Event) : Event :=
  match ev with
  | EvCall _ o => EvCall [] o
  | EvSleep t => EvSleep t
  end.

(** ** Reading the runs of [map] *)

(** The calls of the callback of [map] on the elements [elems] of the
    array [all], the first with index [i]: element, index and array;
    [results] are what the calls returned. *)
Fixpoint map_calls (all : list Value) (i : nat) (elems : list Value)
    (results : list Outcome) : list Event :=
  match elems, results with
  | x :: elems', o :: results' =>
      EvCall [x; VNum (Z.of_nat i); VArray all] o
      :: map_calls all (S i) elems' results'
  | _, _ => []
  end.

(** The error of the first promise to fail, in the order of settlement. *)
Fixpoint first_rejection (ps : list Outcome) (order : list nat) : option Value :=
  match order with
  | [] => None
  | i :: rest =>
      match ps !! i with
      | Some (Rejected e) => Some e
      | _ => first_rejection ps rest
      end
  end.

(** ** Reading the runs of the chained [retry] *)

(** [callback] with [val] as its first argument. *)
Definition with_first {St : Type} (val : Value) (callback : UserFn St)
  : UserFn St :=
  fun args => callback [val; arg 0 args].

(** A call as [Promise.prototype.retry] makes it: [val] comes first. *)
Definition chained_call (val : Value) (ev : Event) : Event :=
  match ev with
  | EvCall args o => EvCall [val; arg 0 args] o
  | EvSleep t => EvSleep t
  end.

Definition map_events {St : Type} (g : Event → Event) (r : RetryRun St)
  : RetryRun St :=
  {| outcome := outcome r; collected := collected r; final := final r;
     events := g <$> events r |}.

(** [f] does not write to the console. *)
Definition silent {St : Type} (f : UserFn St) : Prop :=
  ∀ args w, console (f args w).2 = console w.

(** What [console.error] receives for the error [e] of a failed attempt. *)
Definition retry_report (o : RetryOptions) (e : Value) : string * Value :=
  (default "" (errorPrefix o) +:+ "Retry loop failed:", e).

(** ** Inputs of further examples *)

(** A world whose only object, at location [1], is
    [{times: 2, printErrors: true, errorPrefix: 'job: '}]. *)
Definition world_printing : World nat :=
  {| heap := {[ 1%positive :=
                  mkOptions (Some 2%Z) None (Some true) (Some "job: ") ]};
     console := []; user := 0 |}.

(** [() => { options.times = 100; throw 'again' }], for the options
    object at location [1]. *)
Definition resets_times : UserFn nat :=
  fun _ w => (Rejected (VStr "again"), assign_times 1 100 w).

(** A world with the objects [{times: 2}] at [1] and [{times: 5}] at [2]. *)
Definition world_two : World nat :=
  {| heap := <[ 2%positive := mkOptions (Some 5%Z) None None None ]>
               {[ 1%positive := mkOptions (Some 2%Z) None None None ]};
     console := []; user := 0 |}.


(** [x => x], as a callback of [map] *)
Definition start_identity {St : Type} : Starter St :=
  fun args w => (Normal (Fulfilled (arg 0 args)), w).

(** [x => { if (x === null) throw 'null'; return x }] *)
Definition throw_on_null {St : Type} : Starter St :=
  fun args w =>
    match arg 0 args with
    | VNull => (Throw (VStr "null"), w)
    | x => (Normal (Fulfilled x), w)
    end.

(** [async x => { if (x === null) throw 'null'; return x }] *)
Definition reject_on_null {St : Type} : Starter St :=
  fun args w =>
    match arg 0 args with
    | VNull => (Normal (Rejected (VStr "null")), w)
    | x => (Normal (Fulfilled x), w)
    end.


(** [['a', Promise.resolve(1), x => x]] *)
Definition mixed_tasks : list (TaskSource nat) :=
  [TValue (VStr "a"); TPromise (Fulfilled (VNum 1)); TFun (invoke identity)].

(** A printer that returns [undefined], as [console.log] does. *)
Definition quiet_printer {St : Type} : SyncFn St :=
  fun _ w => (Normal VUndefined, w).

(** [x => { throw x }], as a function that is called for its value *)
Definition sync_throws {St : Type} : SyncFn St :=
  fun args w => (Throw (arg 0 args), w).

(** [v => `New Value = ${v}`] of the README *)
Definition new_value_text {St : Type} : SyncFn St :=
  fun args w => (Normal (VStr ("New Value = " +:+ ToString (arg 0 args))), w).

(** * Properties *)

(** ** Arrays *)

Lemma index_before_first : index [] (Z.of_nat 0 - 1) = VUndefined.
Proof. reflexivity. Qed.

Lemma index_last_pushed (ret : list Value) (x : Value) :
  index (ret ++ [x]) (Z.of_nat (length (ret ++ [x])) - 1) = x.
Proof.
  unfold index. rewrite length_app, Nat.add_1_r.
  rewrite bool_decide_eq_true_2 by lia.
  replace (Z.to_nat (Z.of_nat (S (length ret)) - 1)) with (length ret) by lia.
  by rewrite lookup_app_r, Nat.sub_diag.
Qed.

Lemma last_index (ret : list Value) :
  index ret (Z.of_nat (length ret) - 1) = default VUndefined (last ret).
Proof.
  destruct ret as [|y ret] using rev_ind; [done|].
  by rewrite index_last_pushed, last_snoc.
Qed.

(** ** The sequencer *)

Section Sequencer.
Context {St : Type}.
Implicit Types (w : World St) (task : TaskSource St).
Implicit Types (tasks rest pre post : list (TaskSource St)).
Implicit Types (ret results : list Value) (evs : list Event).

(** The test [idx < 0] on [idx = ret.length] never holds: a function is
    always called on [ret[idx-1]], whatever the seed. *)
Lemma run_task_fun (f : Callable St) seedValue ret :
  run_task (TFun f) seedValue ret
  = f [index ret (Z.of_nat (length ret) - 1); VNum (Z.of_nat (length ret))].
Proof. unfold run_task. by rewrite bool_decide_eq_false_2 by lia. Qed.

(** After the first turn a function receives the value pushed last. *)
Lemma run_task_previous (f : Callable St) seedValue ret (x : Value) :
  run_task (TFun f) seedValue (ret ++ [x])
  = f [x; VNum (Z.of_nat (length (ret ++ [x])))].
Proof. by rewrite run_task_fun, index_last_pushed. Qed.

(** The seed value has no effect on a run. *)
Lemma run_task_seed task seed1 seed2 ret :
  run_task task seed1 ret = run_task task seed2 ret.
Proof. destruct task; [by rewrite !run_task_fun | done | done]. Qed.

Lemma sync_loop_seed tasks seed1 seed2 ret w :
  sync_loop tasks seed1 ret w = sync_loop tasks seed2 ret w.
Proof.
  revert ret w. induction tasks as [|task rest IH]; intros ret w; [done|].
  simpl. unfold await_then. rewrite (run_task_seed task seed1 seed2).
  destruct (run_task task seed2 ret w) as [[[x|e] w1] ev1];
    [by rewrite IH | done].
Qed.

Lemma sync_loop_cons task rest seedValue ret w :
  sync_loop (task :: rest) seedValue ret w
  = let '(o, w1, ev1) := run_task task seedValue ret w in
    match o with
    | Fulfilled x =>
        let '(r, w2, ev2) := sync_loop rest seedValue (ret ++ [x]) w1 in
        (r, w2, ev1 ++ ev2)
    | Rejected e => (Rejected e, w1, ev1)
    end.
Proof. reflexivity. Qed.

(** A list of tasks that all succeed, followed by more tasks: the loop
    goes on from the results, the world and the events of the first. *)
Lemma sync_loop_app pre post seedValue ret w results w1 ev1 :
  sync_loop pre seedValue ret w = (Fulfilled (VArray results), w1, ev1) →
  sync_loop (pre ++ post) seedValue ret w
  = let '(o, w2, ev2) := sync_loop post seedValue results w1 in
    (o, w2, ev1 ++ ev2).
Proof.
  revert ret w ev1. induction pre as [|task pre IH]; intros ret w ev1 Hpre.
  - injection Hpre as <- <- <-. simpl.
    by destruct (sync_loop post seedValue ret w) as [[o w2] ev2].
  - rewrite <- app_comm_cons, sync_loop_cons. rewrite sync_loop_cons in Hpre.
    destruct (run_task task seedValue ret w) as [[[x|e] wt] evt]; [|done].
    destruct (sync_loop pre seedValue (ret ++ [x]) wt) as [[r w2] ev2] eqn:Hrest.
    injection Hpre as -> -> <-. rewrite (IH _ _ _ Hrest).
    destruct (sync_loop post seedValue results w1) as [[o w3] ev3].
    by rewrite app_assoc.
Qed.

(** The array that the loop resolves to has one more entry per task. *)
Lemma sync_loop_length tasks seedValue ret w results w1 ev1 :
  sync_loop tasks seedValue ret w = (Fulfilled (VArray results), w1, ev1) →
  length results = (length ret + length tasks)%nat.
Proof.
  revert ret w ev1. induction tasks as [|task rest IH]; intros ret w ev1 Hrun.
  - injection Hrun as <- _ _. simpl. lia.
  - rewrite sync_loop_cons in Hrun.
    destruct (run_task task seedValue ret w) as [[[x|e] wt] evt]; [|done].
    destruct (sync_loop rest seedValue (ret ++ [x]) wt) as [[r w2] ev2] eqn:Hrest.
    injection Hrun as -> -> _. apply IH in Hrest.
    rewrite length_app in Hrest. simpl in *. lia.
Qed.

(** C1, at an input where the code and the claim differ:
    [Promise.sync([x => x], 5)].  The function at index 0 is called with
    [(undefined, 0)], not with the seed value [5], and the promise
    resolves to [[undefined]]. *)
Theorem sync_first_task_misses_seed (w : World St) :
  Promise_sync [TFun (invoke identity)] (VNum 5) w
  = (Fulfilled (VArray [VUndefined]), w,
     [EvCall [VUndefined; VNum 0] (Fulfilled VUndefined)]).
Proof. reflexivity. Qed.

(** C5: when the tasks before index [k] have all succeeded (with values
    [results], leaving the world [w1]) and the task at index [k] fails
    with [e], the promise of [Promise.sync] rejects with [e]; the world
    and the events are those at the failure, whatever tasks follow, so
    that no later task is called; and no array of results is returned. *)
Theorem sync_short_circuit pre task post seedValue w results w1 ev1 e w2 ev2 :
  Promise_sync pre seedValue w = (Fulfilled (VArray results), w1, ev1) →
  run_task task seedValue results w1 = (Rejected e, w2, ev2) →
  Promise_sync (pre ++ task :: post) seedValue w = (Rejected e, w2, ev1 ++ ev2).
Proof.
  intros Hpre Htask. unfold Promise_sync in *.
  rewrite (sync_loop_app _ _ _ _ _ _ _ _ Hpre), sync_loop_cons.
  by rewrite Htask.
Qed.

(** C9: on an empty list of tasks, with any seed value ([undefined] when
    none is given), [Promise.sync] resolves to the empty array; no
    function is called and the world is left as it was. *)
Theorem sync_empty seedValue w :
  Promise_sync [] seedValue w = (Fulfilled (VArray []), w, []).
Proof. reflexivity. Qed.

(** The loop over the tasks that [Promise.prototype.sync] builds from
    the elements of an array, started on any [ret]. *)
Lemma sync_loop_callback (cb : UserFn St) (elems : list Value) seedValue ret w :
  ∃ results,
    match sync_loop (map (sync_task (invoke cb)) elems) seedValue ret w with
    | (Fulfilled r, _, evs) =>
        r = VArray (ret ++ results) ∧ length results = length elems ∧
        evs = callback_calls (length ret) (default VUndefined (last ret))
                elems results
    | (Rejected e, _, evs) =>
        ∃ x, elems !! length results = Some x ∧
        evs = callback_calls (length ret) (default VUndefined (last ret))
                elems results
              ++ [EvCall [x; VNum (Z.of_nat (length ret + length results));
                          default VUndefined (last (ret ++ results))]
                    (Rejected e)]
    end.
Proof.
  revert ret w. induction elems as [|x elems IH]; intros ret w.
  - exists []. simpl. by rewrite app_nil_r.
  - rewrite fmap_cons, sync_loop_cons. unfold sync_task at 1.
    rewrite run_task_fun, last_index. unfold invoke at 1, arg. simpl.
    destruct (cb _ w) as [[r|e] w1].
    + destruct (IH (ret ++ [r]) w1) as [results Hrest].
      destruct (sync_loop _ seedValue (ret ++ [r]) w1) as [[[r'|e'] w2] ev2].
      * destruct Hrest as (-> & Hlen & ->). exists (r :: results).
        rewrite <- app_assoc, length_app, last_snoc, Nat.add_1_r. simpl.
        by rewrite Hlen.
      * destruct Hrest as (y & Hy & ->). exists (r :: results).
        exists y. split; [done|].
        rewrite <- !app_assoc, length_app, last_snoc, Nat.add_1_r. simpl.
        by rewrite Nat.add_succ_r.
    + exists []. exists x. split; [done|]. simpl.
      by rewrite app_nil_r, Nat.add_0_r.
Qed.

(** C8: [.sync(callback)] on a promise fulfilled with the array [elems].
    The callback is called on the elements in index order, once each,
    with the element, its index and the value returned by the call before
    it, [undefined] for the first call.  When every call returns, the
    promise resolves to the array of the values returned, one per
    element; a call that fails is the last one, and the promise rejects
    with its error. *)
Theorem prototype_sync_array (cb : UserFn St) (elems : list Value) w :
  ∃ results,
    match Promise_prototype_sync (Fulfilled (VArray elems)) (invoke cb) w with
    | (Fulfilled r, _, evs) =>
        r = VArray results ∧ length results = length elems ∧
        evs = callback_calls 0 VUndefined elems results
    | (Rejected e, _, evs) =>
        ∃ x, elems !! length results = Some x ∧
        evs = callback_calls 0 VUndefined elems results
              ++ [EvCall [x; VNum (Z.of_nat (length results));
                          default VUndefined (last results)]
                    (Rejected e)]
    end.
Proof.
  destruct (sync_loop_callback cb elems VUndefined [] w) as [results Hrun].
  exists results. unfold Promise_prototype_sync, await_then, settle, Promise_sync.
  by destruct (sync_loop _ VUndefined [] w) as [[[r|e] w1] evs].
Qed.

End Sequencer.

Lemma sync_short_circuit_witness :
  Promise_sync
    ([TValue (VStr "a"); TFun (invoke identity)]
       ++ TFun (invoke throws_argument) :: [TFun (invoke identity)])
    VUndefined world_empty
  = (Rejected (VStr "a"), world_empty,
     [EvCall [VStr "a"; VNum 1] (Fulfilled (VStr "a"))]
       ++ [EvCall [VStr "a"; VNum 2] (Rejected (VStr "a"))]).
Proof.
  apply (sync_short_circuit _ _ _ _ _ [VStr "a"; VStr "a"] world_empty);
    reflexivity.
Defined.

(** ** The retry engine *)

Lemma set_times_twice (a b : Z) (o : RetryOptions) :
  set_times a (set_times b o) = set_times a o.
Proof. reflexivity. Qed.

Lemma failed_attempts_calls (t d : Z) (errs : list Value) :
  length (List.filter is_call (failed_attempts t d errs)) = length errs.
Proof.
  revert t. induction errs as [|e errs IH]; intros t; [done|].
  simpl. by rewrite IH.
Qed.

Lemma failed_attempts_sleeps (t d : Z) (errs : list Value) :
  List.filter is_sleep (failed_attempts t d errs)
  = replicate (length errs) (EvSleep d).
Proof.
  revert t. induction errs as [|e errs IH]; intros t; [done|].
  simpl. by rewrite IH.
Qed.

Lemma failed_attempts_failed_calls (t d : Z) (errs : list Value) :
  length (List.filter is_failed_call (failed_attempts t d errs)) = length errs.
Proof.
  revert t. induction errs as [|e errs IH]; intros t; [done|].
  simpl. by rewrite IH.
Qed.

Section RetryEngine.
Context {St : Type}.
Implicit Types (w : World St) (f : UserFn St) (fn : Callable St).
Implicit Types (o : RetryOptions) (options : positive).

Lemma retry_run f options fuel errs0 w o :
  preserves options f →
  heap w !! options = Some o →
  (Z.to_nat (default 1%Z (times o)) < fuel)%nat →
  let t := default 1%Z (times o) in
  let d := default 500%Z (delay o) in
  ∃ r errs last,
    retry fuel (invoke f) options errs0 w = Some r
    ∧ collected r = errs0 ++ errs
    ∧ events r = failed_attempts t d errs ++ last
    ∧ Forall (call_of f) (events r)
    ∧ heap (final r) !! options
      = Some match errs with
             | [] => o
             | _ :: _ => set_times (t - Z.of_nat (length errs)) o
             end
    ∧ match outcome r with
      | Fulfilled v =>
          last = [EvCall [VNum (t - Z.of_nat (length errs))] (Fulfilled v)]
          ∧ (Z.of_nat (length errs) < t)%Z
      | Rejected x =>
          last = [] ∧ length errs = Z.to_nat t
          ∧ x = VError "Error"
                  (exhausted_message (default "" (errorPrefix o)) (errs0 ++ errs))
      end.
Proof.
  intros Hf. revert errs0 w o.
  induction fuel as [|fuel IH]; intros errs0 w o Hw Hfuel t d; [lia|].
  simpl retry. rewrite Hw. fold t d. case_bool_decide as Ht.
  - eexists _, [], []. split; [done|]. simpl. rewrite app_nil_r.
    split_and!; try done. lia.
  - unfold invoke at 1. destruct (f [VNum t] w) as [[v|e] w1] eqn:Hcall.
    + eexists _, [], _. split; [done|]. simpl. rewrite app_nil_r, Z.sub_0_r.
      split_and!; try done; [| | lia].
      * repeat constructor. exists w. by rewrite Hcall.
      * specialize (Hf [VNum t] w). rewrite Hcall in Hf. simpl in Hf. congruence.
    + set (w2 := if default false (printErrors o) then _ else w1).
      assert (heap w2 !! options = Some o) as Hw2.
      { specialize (Hf [VNum t] w). rewrite Hcall in Hf. simpl in Hf.
        rewrite <- Hw, <- Hf. unfold w2. by destruct (default false _). }
      simpl.
      set (w3 := assign_times options (t - 1) w2).
      assert (heap w3 !! options = Some (set_times (t - 1) o)) as Hw3.
      { unfold w3, assign_times. simpl. by rewrite lookup_alter_eq, Hw2. }
      destruct (IH (errs0 ++ [e]) w3 _ Hw3) as
        (r & errs & last & -> & Hcol & Hev & Hcalls & Hfinal & Hout).
      { simpl. lia. }
      simpl in Hcol, Hev, Hcalls, Hfinal, Hout.
      exists (after ([EvCall [VNum t] (Rejected e)] ++ [EvSleep d]) r),
        (e :: errs), last.
      cbn [after collected events final outcome failed_attempts length app].
      replace (t - Z.of_nat (S (length errs)))%Z
        with (t - 1 - Z.of_nat (length errs))%Z by lia.
      split_and!.
      * done.
      * by rewrite Hcol, <- app_assoc.
      * by rewrite Hev.
      * constructor; [exists w; by rewrite Hcall|]. by constructor.
      * rewrite Hfinal. destruct errs as [|e' errs]; [|done].
        simpl. by rewrite Z.sub_0_r.
      * destruct (outcome r) as [v|x].
        -- destruct Hout as [-> Hlt]. split; [done | lia].
        -- destruct Hout as (-> & Hlen & ->). rewrite <- app_assoc.
           split_and!; try done. rewrite Hlen. lia.
Qed.

(** More fuel does not change a run that has settled. *)
Lemma retry_fuel_mono fn options (fuel fuel' : nat) errs0 w (r : RetryRun St) :
  retry fuel fn options errs0 w = Some r →
  fuel ≤ fuel' →
  retry fuel' fn options errs0 w = Some r.
Proof.
  revert fuel' errs0 w r.
  induction fuel as [|fuel IH]; intros fuel' errs0 w r Hrun Hle; [done|].
  destruct fuel' as [|fuel']; [lia|]. simpl in *.
  destruct (heap w !! options) as [o|]; [|done].
  case_bool_decide; [done|].
  destruct (fn _ w) as [[[v|e] w1] ev1]; [done|]. simpl in *.
  destruct (retry fuel fn options _ _) as [r'|] eqn:Hrec; [|done].
  rewrite (IH fuel' _ _ r' Hrec); [done | lia].
Qed.

(** The recursion ends, for every callable: what the next call reads as
    [times] is what this call has just written, one less than it read. *)
Lemma retry_settles fn options (fuel : nat) errs0 w :
  Z.to_nat (remaining options w) < fuel →
  is_Some (retry fuel fn options errs0 w).
Proof.
  revert errs0 w. induction fuel as [|fuel IH]; intros errs0 w Hfuel; [lia|].
  unfold remaining in Hfuel. simpl.
  destruct (heap w !! options) as [o|] eqn:Hw; [|done].
  case_bool_decide as Ht; [done|].
  destruct (fn _ w) as [[[v|e] w1] ev1]; [done|]. simpl.
  apply fmap_is_Some, IH. unfold remaining, assign_times. simpl.
  rewrite lookup_alter_eq.
  destruct (default false (printErrors o)); simpl;
    destruct (heap w1 !! options); simpl; lia.
Qed.

Lemma Promise_retry_settles fn options w :
  is_Some (Promise_retry fn options w).
Proof. apply retry_settles. lia. Qed.

(** [Promise.retry(fn, options)] when [options] is an object and the
    callable leaves it alone. *)
Lemma Promise_retry_run f options w o :
  preserves options f →
  heap w !! options = Some o →
  let t := default 1%Z (times o) in
  let d := default 500%Z (delay o) in
  ∃ r errs last,
    Promise_retry (invoke f) options w = Some r
    ∧ collected r = errs
    ∧ events r = failed_attempts t d errs ++ last
    ∧ Forall (call_of f) (events r)
    ∧ heap (final r) !! options
      = Some match errs with
             | [] => o
             | _ :: _ => set_times (t - Z.of_nat (length errs)) o
             end
    ∧ match outcome r with
      | Fulfilled v =>
          last = [EvCall [VNum (t - Z.of_nat (length errs))] (Fulfilled v)]
          ∧ (Z.of_nat (length errs) < t)%Z
      | Rejected x =>
          last = [] ∧ length errs = Z.to_nat t
          ∧ x = VError "Error"
                  (exhausted_message (default "" (errorPrefix o)) errs)
      end.
Proof.
  intros Hf Hw. unfold Promise_retry, remaining. rewrite Hw.
  apply (retry_run f options _ [] w o Hf Hw). lia.
Qed.

(** One failed attempt: the recursive call runs on the same location
    [options], after the wait, with the error pushed and with the field
    [times] of the object written to one less than what this call read. *)
Lemma retry_failed_attempt f options fuel errs0 w o e w1 :
  heap w !! options = Some o →
  (0 < default 1 (times o))%Z →
  f [VNum (default 1%Z (times o))] w = (Rejected e, w1) →
  ∃ w3,
    retry (S fuel) (invoke f) options errs0 w
    = after [EvCall [VNum (default 1%Z (times o))] (Rejected e);
             EvSleep (default 500%Z (delay o))]
        <$> retry fuel (invoke f) options (errs0 ++ [e]) w3
    ∧ heap w3 = alter (set_times (default 1%Z (times o) - 1)) options (heap w1)
    ∧ user w3 = user w1.
Proof.
  intros Hw Ht Hcall. simpl retry. rewrite Hw.
  rewrite bool_decide_eq_false_2 by lia. unfold invoke at 1. rewrite Hcall.
  simpl. eexists. split; [reflexivity|]. by destruct (default false _).
Qed.

(** C3: a callable retried with [{times: n}], [n] being an integer from
    [0] to [exact_limit], that fails at every attempt of the run, that is,
    no call of the run returns.  The callable is called exactly [n] times,
    and the promise rejects with the error whose message is the prefix of
    the options, the text [Exhausted retry loops:], a line feed and the
    strings of the [n] errors joined by line feeds, in the order in which
    the calls failed. *)
Theorem retry_exhaustion f options w o (n : Z) :
  heap w !! options = Some o →
  times o = Some n →
  (0 ≤ n ≤ exact_limit)%Z →
  preserves options f →
  ∃ r,
    Promise_retry (invoke f) options w = Some r
    ∧ (List.filter is_successful_call (events r) = [] →
       ∃ errs,
         outcome r
         = Rejected (VError "Error"
             (default "" (errorPrefix o) +:+ "Exhausted retry loops:" +:+ LF
                +:+ join LF errs))
         ∧ length errs = Z.to_nat n
         ∧ events r = failed_attempts n (default 500%Z (delay o)) errs
         ∧ length (List.filter is_call (events r)) = Z.to_nat n).
Proof.
  intros Hw Hn Hbound Hf.
  destruct (Promise_retry_run f options w o Hf Hw)
    as (r & errs & last & Hrun & _ & Hev & _ & _ & Hout).
  rewrite Hn in *. simpl in *. exists r. split; [done|].
  intros Hnone. exists errs. destruct (outcome r) as [v|x].
  - destruct Hout as [-> _]. rewrite Hev, List.filter_app in Hnone.
    by apply app_eq_nil in Hnone as [_ Hlast].
  - destruct Hout as (-> & Hlen & ->). rewrite app_nil_r in Hev.
    split_and!; try done. by rewrite Hev, failed_attempts_calls.
Qed.

(** C4: with [{times: 0}] the promise rejects at once with the exhaustion
    error made from an empty list of errors; no event happens, so that
    the callable, whatever it is, is not called and nothing is waited
    for; the world is left as it was. *)
Theorem retry_zero_times fn options w o :
  heap w !! options = Some o →
  times o = Some 0%Z →
  Promise_retry fn options w
  = Some {| outcome :=
              Rejected (VError "Error"
                (default "" (errorPrefix o) +:+ "Exhausted retry loops:" +:+ LF
                   +:+ join LF []));
            collected := []; final := w; events := [] |}.
Proof.
  intros Hw Ht. unfold Promise_retry, remaining. rewrite Hw, Ht. simpl.
  by rewrite Hw, Ht.
Qed.

(** C6, as the code has it: the attempts come one after the other, and
    one wait of the configured length follows every failed attempt, the
    last one included, after which comes the next attempt or, when no
    attempt is left, the rejection.  Nothing is waited for before the
    first attempt, after a successful attempt or after the rejection.
    The errors of the failed attempts are collected in order and are not
    part of a successful result. *)
Theorem retry_delay_placement f options w o :
  heap w !! options = Some o →
  preserves options f →
  ∃ r last,
    Promise_retry (invoke f) options w = Some r
    ∧ events r
      = failed_attempts (default 1%Z (times o)) (default 500%Z (delay o))
          (collected r) ++ last
    ∧ match outcome r with
      | Fulfilled v =>
          last = [EvCall [VNum (default 1%Z (times o)
                                - Z.of_nat (length (collected r)))]
                    (Fulfilled v)]
      | Rejected _ => last = []
      end.
Proof.
  intros Hw Hf.
  destruct (Promise_retry_run f options w o Hf Hw)
    as (r & errs & last & Hrun & <- & Hev & _ & _ & Hout).
  exists r, last. split_and!; try done.
  destruct (outcome r); by destruct Hout as [-> _].
Qed.

(** C7: the object that the caller passed is the one that is written.
    When the first attempt fails, the count being an integer from [1] to
    [exact_limit], at least one failed call is in the run, and after the
    run the field [times] of the object at [options] is the value the call
    started from less the number of failed calls, one for each, the other
    fields being as they were. *)
Theorem retry_decrements_times_in_place f options w o (e : Value) w1 :
  heap w !! options = Some o →
  (0 < default 1 (times o) ≤ exact_limit)%Z →
  preserves options f →
  f [VNum (default 1%Z (times o))] w = (Rejected e, w1) →
  ∃ r,
    Promise_retry (invoke f) options w = Some r
    ∧ 1 ≤ length (List.filter is_failed_call (events r))
    ∧ length (collected r) = length (List.filter is_failed_call (events r))
    ∧ heap (final r) !! options
      = Some (set_times
                (default 1%Z (times o)
                 - Z.of_nat (length (List.filter is_failed_call (events r))))
                o).
Proof.
  intros Hw [Hpos Hmax] Hf Hcall.
  pose proof (Hf [VNum (default 1%Z (times o))] w) as Hkeep.
  rewrite Hcall in Hkeep. simpl in Hkeep.
  destruct (retry_failed_attempt f options (Z.to_nat (default 1%Z (times o)))
              [] w o e w1 Hw Hpos Hcall) as (w3 & Hstep & Hheap & _).
  assert (heap w3 !! options = Some (set_times (default 1%Z (times o) - 1) o))
    as Hw3 by (by rewrite Hheap, lookup_alter_eq, Hkeep, Hw).
  destruct (retry_run f options (Z.to_nat (default 1%Z (times o))) ([] ++ [e])
              w3 _ Hf Hw3)
    as (r & errs & last & Hrun & Hcol & Hev & _ & Hfinal & Hout).
  { simpl. lia. }
  unfold Promise_retry, remaining. rewrite Hw, Hstep, Hrun.
  eexists. split; [reflexivity|].
  cbn [fmap option_fmap option_map after events collected final].
  assert (length
            (List.filter is_failed_call
               ([EvCall [VNum (default 1%Z (times o))] (Rejected e);
                 EvSleep (default 500%Z (delay o))] ++ events r))
          = S (length errs)) as ->.
  { rewrite Hev. simpl. rewrite List.filter_app, length_app.
    rewrite failed_attempts_failed_calls.
    destruct (outcome r); destruct Hout as [-> _]; simpl; lia. }
  split_and!; [lia | by rewrite Hcol | ].
  rewrite Hfinal. f_equal.
  replace (default 1%Z (times o) - Z.of_nat (S (length errs)))%Z
    with (default 1%Z (times o) - 1 - Z.of_nat (length errs))%Z by lia.
  destruct errs as [|e' errs]; [|done].
  unfold set_times. cbn [length]. do 2 f_equal. lia.
Qed.

(** C10: when the first attempt succeeds, the call resolves to its value
    and the world is the one that the callable left: the engine has
    written to no object, so that the options object is as it was, and
    the only event is the call itself, without any wait. *)
Theorem retry_first_success_leaves_options f options w o v w1 :
  heap w !! options = Some o →
  (0 < default 1 (times o))%Z →
  f [VNum (default 1%Z (times o))] w = (Fulfilled v, w1) →
  heap w1 !! options = Some o →
  ∃ r,
    Promise_retry (invoke f) options w = Some r
    ∧ outcome r = Fulfilled v
    ∧ final r = w1
    ∧ heap (final r) !! options = Some o
    ∧ events r = [EvCall [VNum (default 1%Z (times o))] (Fulfilled v)].
Proof.
  intros Hw Ht Hcall Hw1. unfold Promise_retry, remaining. rewrite Hw.
  simpl retry. rewrite Hw, bool_decide_eq_false_2 by lia.
  unfold invoke. rewrite Hcall. eexists. split; [reflexivity|]. done.
Qed.

End RetryEngine.

(** ** The retry engine on the examples *)

Lemma worksFifthTime_preserves (options : positive) :
  preserves options worksFifthTime.
Proof. intros args w. unfold worksFifthTime. by case_bool_decide. Qed.

Lemma throws_argument_preserves {St : Type} (options : positive) :
  preserves (St:=St) options throws_argument.
Proof. by intros args w. Qed.

(** The run of the README: [worksFifthTime] fails four times and succeeds
    at the fifth attempt.  With [{times: 8}] the promise resolves to
    ['Yay'] after four waits of 500 ms, four errors have been collected,
    and the options object is left with [times] equal to 4. *)
Example retry_works_fifth_time :
  ∃ r,
    Promise_retry (invoke worksFifthTime) 1 (world_times 8) = Some r
    ∧ outcome r = Fulfilled (VStr "Yay")
    ∧ collected r = [VStr "Nay"; VStr "Nay"; VStr "Nay"; VStr "Nay"]
    ∧ List.filter is_sleep (events r) = replicate 4 (EvSleep 500)
    ∧ List.filter is_call (events r)
      = [EvCall [VNum 8] (Rejected (VStr "Nay"));
         EvCall [VNum 7] (Rejected (VStr "Nay"));
         EvCall [VNum 6] (Rejected (VStr "Nay"));
         EvCall [VNum 5] (Rejected (VStr "Nay"));
         EvCall [VNum 4] (Fulfilled (VStr "Yay"))]
    ∧ delays_between_attempts (events r) = true
    ∧ heap (final r) !! 1%positive = Some (mkOptions (Some 4%Z) None None None).
Proof. eexists. split; [reflexivity|]. by vm_compute. Qed.

(** C6 as it is stated does not hold: with [{times: 1}] and a callable that
    fails, the wait comes after the only attempt and is followed by the
    rejection, not by another attempt. *)
Lemma retry_waits_before_exhaustion :
  ∃ r,
    Promise_retry (invoke throws_argument) 1 (world_times 1) = Some r
    ∧ outcome r
      = Rejected (VError "Error" ("Exhausted retry loops:" +:+ LF +:+ "1"))
    ∧ events r = [EvCall [VNum 1] (Rejected (VNum 1)); EvSleep 500]
    ∧ delays_between_attempts (events r) = false.
Proof. eexists. split; [reflexivity|]. by vm_compute. Qed.

Lemma retry_exhaustion_witness :
  heap (world_times 2) !! 1%positive = Some (mkOptions (Some 2%Z) None None None)
  ∧ (0 ≤ 2 ≤ exact_limit)%Z
  ∧ preserves 1 worksFifthTime
  ∧ ∃ r,
      Promise_retry (invoke worksFifthTime) 1 (world_times 2) = Some r
      ∧ List.filter is_successful_call (events r) = []
      ∧ outcome r
        = Rejected (VError "Error"
            ("Exhausted retry loops:" +:+ LF +:+ "Nay" +:+ LF +:+ "Nay"))
      ∧ ∃ errs,
          outcome r
          = Rejected (VError "Error"
              ("" +:+ "Exhausted retry loops:" +:+ LF +:+ join LF errs))
          ∧ length errs = 2
          ∧ events r = failed_attempts 2 500 errs
          ∧ length (List.filter is_call (events r)) = 2.
Proof.
  split_and!; [reflexivity | done | done | apply worksFifthTime_preserves |].
  assert (0 ≤ 2 ≤ exact_limit)%Z as Hbound by done.
  destruct (retry_exhaustion worksFifthTime 1 (world_times 2)
              (mkOptions (Some 2%Z) None None None) 2
              eq_refl eq_refl Hbound (worksFifthTime_preserves 1))
    as (r & Hrun & Hexhausted).
  exists r. split; [exact Hrun|].
  assert (List.filter is_successful_call (events r) = []
          ∧ outcome r
            = Rejected (VError "Error"
                ("Exhausted retry loops:" +:+ LF +:+ "Nay" +:+ LF +:+ "Nay")))
    as [Hnone Hout].
  { vm_compute in Hrun. injection Hrun as <-. split; reflexivity. }
  split; [exact Hnone|]. split; [exact Hout|]. exact (Hexhausted Hnone).
Defined.

Lemma retry_zero_times_witness :
  heap (world_times 0) !! 1%positive = Some (mkOptions (Some 0%Z) None None None)
  ∧ Promise_retry (invoke worksFifthTime) 1 (world_times 0)
    = Some {| outcome :=
                Rejected (VError "Error"
                  ("" +:+ "Exhausted retry loops:" +:+ LF +:+ join LF []));
              collected := []; final := world_times 0; events := [] |}.
Proof.
  split; [reflexivity|].
  apply (retry_zero_times (invoke worksFifthTime) 1 (world_times 0)
           (mkOptions (Some 0%Z) None None None)); reflexivity.
Defined.

Lemma retry_delay_placement_witness :
  heap (world_times 8) !! 1%positive = Some (mkOptions (Some 8%Z) None None None)
  ∧ preserves 1 worksFifthTime
  ∧ ∃ r last,
      Promise_retry (invoke worksFifthTime) 1 (world_times 8) = Some r
      ∧ events r = failed_attempts 8 500 (collected r) ++ last
      ∧ match outcome r with
        | Fulfilled v =>
            last = [EvCall [VNum (8 - Z.of_nat (length (collected r)))]
                      (Fulfilled v)]
        | Rejected _ => last = []
        end.
Proof.
  split_and!; [reflexivity | apply worksFifthTime_preserves |].
  apply (retry_delay_placement worksFifthTime 1 (world_times 8)
           (mkOptions (Some 8%Z) None None None));
    [reflexivity | apply worksFifthTime_preserves].
Defined.

Lemma retry_decrements_times_in_place_witness :
  heap (world_times 2) !! 1%positive = Some (mkOptions (Some 2%Z) None None None)
  ∧ (0 < 2 ≤ exact_limit)%Z
  ∧ preserves (St:=nat) 1 throws_argument
  ∧ throws_argument [VNum 2] (world_times 2) = (Rejected (VNum 2), world_times 2)
  ∧ (∃ r,
       Promise_retry (invoke throws_argument) 1 (world_times 2) = Some r
       ∧ 1 ≤ length (List.filter is_failed_call (events r))
       ∧ length (collected r) = length (List.filter is_failed_call (events r))
       ∧ heap (final r) !! 1%positive
         = Some (set_times
                   (2 - Z.of_nat (length (List.filter is_failed_call (events r))))
                   (mkOptions (Some 2%Z) None None None)))
  ∧ ∃ r,
      Promise_retry (invoke throws_argument) 1 (world_times 2) = Some r
      ∧ List.filter is_failed_call (events r)
        = [EvCall [VNum 2] (Rejected (VNum 2)); EvCall [VNum 1] (Rejected (VNum 1))]
      ∧ heap (final r) !! 1%positive = Some (mkOptions (Some 0%Z) None None None).
Proof.
  split_and!;
    [reflexivity | done | done | apply throws_argument_preserves
    | reflexivity | |].
  - apply (retry_decrements_times_in_place throws_argument 1 (world_times 2)
             (mkOptions (Some 2%Z) None None None) (VNum 2) (world_times 2));
      [reflexivity | done | apply throws_argument_preserves | reflexivity].
  - eexists. split; [reflexivity|]. split; reflexivity.
Defined.

Lemma retry_first_success_leaves_options_witness :
  heap (world_times 3) !! 1%positive = Some (mkOptions (Some 3%Z) None None None)
  ∧ (0 < 3)%Z
  ∧ identity [VNum 3] (world_times 3) = (Fulfilled (VNum 3), world_times 3)
  ∧ ∃ r,
      Promise_retry (invoke identity) 1 (world_times 3) = Some r
      ∧ outcome r = Fulfilled (VNum 3)
      ∧ final r = world_times 3
      ∧ heap (final r) !! 1%positive = Some (mkOptions (Some 3%Z) None None None)
      ∧ events r = [EvCall [VNum 3] (Fulfilled (VNum 3))].
Proof.
  split_and!; [reflexivity | lia | reflexivity |].
  apply (retry_first_success_leaves_options identity 1 (world_times 3)
           (mkOptions (Some 3%Z) None None None) (VNum 3) (world_times 3));
    [reflexivity | simpl; lia | reflexivity | reflexivity].
Defined.

(** ** First success *)

(** Called without a receiver, [all] throws before anything is joined:
    [Promise.firstSuccess] returns no promise, on any input. *)
Lemma Promise_firstSuccess_throws (arr : list Outcome) (order : list nat) :
  Promise_firstSuccess arr order
  = Throw (VError "TypeError" "Promise.all called on non-object").
Proof. reflexivity. Qed.

(** C2, at the inputs of the claim: on a promise that fails together with
    one that resolves to 20, and on two promises that reject with 10 and
    20, the call throws a [TypeError]; no promise that would resolve to 20
    or reject with [[10, 20]] is returned. *)
Theorem firstSuccess_throws_TypeError :
  Promise_firstSuccess [Rejected (VStr "fail"); Fulfilled (VNum 20)] [1; 0]
  = Throw (VError "TypeError" "Promise.all called on non-object")
  ∧ Promise_firstSuccess [Rejected (VNum 10); Rejected (VNum 20)] [0; 1]
    = Throw (VError "TypeError" "Promise.all called on non-object").
Proof. split; reflexivity. Qed.

(** What the same body computes when the three functions keep [Promise] as
    their receiver, as in [Promise.all(...)]. *)
Section WithReceiver.
Implicit Types (arr ps : list Outcome) (order : list nat) (s : AllState).

Lemma swap_fulfilled (v : Value) :
  swap_outcome ThisPromise (Fulfilled v) = Rejected v.
Proof. reflexivity. Qed.

Lemma swap_rejected (e : Value) :
  swap_outcome ThisPromise (Rejected e) = Fulfilled e.
Proof. reflexivity. Qed.

Lemma lookup_swapped arr (i : nat) :
  map (swap_outcome ThisPromise) arr !! i
  = swap_outcome ThisPromise <$> arr !! i.
Proof. apply list_lookup_fmap. Qed.

(** Once the joined promise has settled it stays as it is. *)
Lemma joined_settled ps order s (o : Outcome) :
  joined s = Some o → joined (foldl (all_settle ps) s order) = Some o.
Proof.
  revert s. induction order as [|i order IH]; intros s Hs; [done|].
  simpl. apply IH. unfold all_settle.
  destruct (ps !! i) as [[x|e]|]; simpl; by rewrite ?Hs.
Qed.

Lemma all_settle_swapped arr s (i : nat) :
  all_settle (map (swap_outcome ThisPromise) arr) s i
  = match arr !! i with
    | Some (Fulfilled v) => all_react i (Rejected v) s
    | Some (Rejected e) => all_react i (Fulfilled e) s
    | None => s
    end.
Proof.
  unfold all_settle. rewrite lookup_swapped. by destruct (arr !! i) as [[v|e]|].
Qed.

(** While fewer elements have been fulfilled than are awaited, the
    joined promise is pending. *)
Lemma joined_pending arr order s :
  joined s = None →
  length order < awaited s →
  (∀ i v, i ∈ order → arr !! i ≠ Some (Fulfilled v)) →
  let s' := foldl (all_settle (map (swap_outcome ThisPromise) arr)) s order in
  joined s' = None ∧ awaited s - length order ≤ awaited s'.
Proof.
  revert s. induction order as [|i order IH]; intros s Hs Hlen Hfail.
  - simpl. split; [done | lia].
  - cbn [foldl length] in *. rewrite all_settle_swapped.
    destruct (arr !! i) as [[v|e]|] eqn:Hi.
    + exfalso. apply (Hfail i v); [left | done].
    + destruct (IH (all_react i (Fulfilled e) s)) as [Hj Ha].
      * simpl. rewrite Hs. destruct (awaited s) as [|[|n]]; [lia | lia | done].
      * simpl. lia.
      * intros j v Hj. apply Hfail. by right.
      * split; [done|]. simpl awaited in Ha at 1. lia.
    + destruct (IH s Hs) as [Hj Ha]; [lia | |].
      * intros j v Hj. apply Hfail. by right.
      * split; [done | lia].
Qed.

(** The settlement order up to the first success. *)
Lemma first_success_split arr order (v : Value) :
  first_success arr order = Some v →
  ∃ before i rest,
    order = before ++ i :: rest
    ∧ arr !! i = Some (Fulfilled v)
    ∧ ∀ j u, j ∈ before → arr !! j ≠ Some (Fulfilled u).
Proof.
  induction order as [|i order IH]; intros Hfirst; [done|].
  simpl in Hfirst. destruct (arr !! i) as [[x|e]|] eqn:Hi.
  - injection Hfirst as ->. exists [], i, order. split_and!; try done.
    intros j u Hj. by apply elem_of_nil in Hj.
  - destruct (IH Hfirst) as (before & k & rest & -> & Hk & Hbefore).
    exists (i :: before), k, rest. split_and!; try done.
    intros j u [->|Hj]%elem_of_cons; [congruence | by apply Hbefore].
  - destruct (IH Hfirst) as (before & k & rest & -> & Hk & Hbefore).
    exists (i :: before), k, rest. split_and!; try done.
    intros j u [->|Hj]%elem_of_cons; [congruence | by apply Hbefore].
Qed.

Lemma settled_before_bound (n : nat) order :
  NoDup order → (∀ i, i ∈ order → i < n) → length order ≤ n.
Proof.
  intros Hnodup Hrange.
  assert (order ⊆+ seq 0 n) as Hsub%submseteq_length.
  { apply NoDup_submseteq; [done|]. intros i Hi. apply elem_of_seq.
    specialize (Hrange i Hi). lia. }
  by rewrite length_seq in Hsub.
Qed.

(** With the receiver in place: when a promise succeeds, the result
    resolves to the value of the first one, in the order of settlement,
    that does. *)
Lemma firstSuccess_on_Promise_resolves arr order (v : Value) :
  NoDup order →
  (∀ i, i ∈ order → i < length arr) →
  first_success arr order = Some v →
  firstSuccess_on ThisPromise arr order = Normal (Some (Fulfilled v)).
Proof.
  intros Hnodup Hrange Hfirst.
  destruct (first_success_split arr order v Hfirst)
    as (before & i & rest & -> & Hi & Hbefore).
  assert (length before < length arr) as Hlen.
  { pose proof (settled_before_bound (length arr) _ Hnodup Hrange) as Hb.
    rewrite length_app in Hb. simpl in Hb. lia. }
  unfold firstSuccess_on, static_all, all_run. simpl.
  rewrite length_map, foldl_app. simpl.
  destruct (joined_pending arr before (all_start (length arr))) as [Hj _];
    [destruct (length arr); [lia | done] | done | done |].
  rewrite (joined_settled _ _ _ (Rejected v)); [done|].
  rewrite all_settle_swapped, Hi. simpl. by rewrite Hj.
Qed.

(** When as many elements are fulfilled as are awaited, the joined
    promise is fulfilled with the values received. *)
Lemma joined_fulfilled arr order s :
  joined s = None →
  length order = awaited s →
  0 < awaited s →
  (∀ i, i ∈ order → ∃ e, arr !! i = Some (Rejected e)) →
  let s' := foldl (all_settle (map (swap_outcome ThisPromise) arr)) s order in
  joined s' = Some (Fulfilled (VArray (omap id (slots s')))).
Proof.
  revert s. induction order as [|i order IH]; intros s Hs Hlen Hpos Hfail.
  - simpl in Hlen. lia.
  - cbn [foldl length] in *. rewrite all_settle_swapped.
    destruct (Hfail i) as [e ->]; [left|].
    destruct order as [|j order].
    + simpl in *. rewrite Hs. by rewrite <- Hlen.
    + apply IH.
      * simpl in *. rewrite Hs. by rewrite <- Hlen.
      * simpl in *. lia.
      * simpl in *. lia.
      * intros k Hk. apply Hfail. by right.
Qed.

Lemma slots_length ps order s :
  length (slots (foldl (all_settle ps) s order)) = length (slots s).
Proof.
  revert s. induction order as [|i order IH]; intros s; [done|].
  simpl. rewrite IH. unfold all_settle.
  destruct (ps !! i) as [[x|e]|]; simpl; [|done..]. by rewrite length_insert.
Qed.

(** A value received for an element stays in its slot. *)
Lemma slot_kept arr order s (k : nat) (e : Value) :
  arr !! k = Some (Rejected e) →
  slots s !! k = Some (Some e) →
  slots (foldl (all_settle (map (swap_outcome ThisPromise) arr)) s order) !! k
  = Some (Some e).
Proof.
  intros Hk. revert s. induction order as [|i order IH]; intros s Hs; [done|].
  cbn [foldl]. apply IH. rewrite all_settle_swapped.
  destruct (arr !! i) as [[v|e']|] eqn:Hi; simpl; [done| |done].
  destruct (decide (i = k)) as [->|Hne].
  - assert (e' = e) as -> by congruence.
    apply list_lookup_insert_eq. by apply lookup_lt_Some in Hs.
  - by rewrite list_lookup_insert_ne.
Qed.

Lemma slot_filled arr order s (k : nat) (e : Value) :
  k ∈ order →
  arr !! k = Some (Rejected e) →
  k < length (slots s) →
  slots (foldl (all_settle (map (swap_outcome ThisPromise) arr)) s order) !! k
  = Some (Some e).
Proof.
  intros Hin Hk. revert s.
  induction order as [|i order IH]; intros s Hlen; [by apply elem_of_nil in Hin|].
  cbn [foldl]. destruct (decide (i = k)) as [->|Hne].
  - apply slot_kept; [done|]. rewrite all_settle_swapped, Hk. simpl.
    by apply list_lookup_insert_eq.
  - apply IH.
    + apply elem_of_cons in Hin as [->|Hin]; done.
    + pose proof (slots_length (map (swap_outcome ThisPromise) arr) [i] s) as Hl.
      simpl in Hl. by rewrite Hl.
Qed.

Lemma omap_id_Some (errors : list Value) : omap id (Some <$> errors) = errors.
Proof. induction errors as [|e errors IH]; [done|]. csimpl. by rewrite IH. Qed.

(** With the receiver in place: when all the promises fail, the result
    rejects with the array of their errors, in index order, whatever
    the order in which they settled. *)
Lemma firstSuccess_on_Promise_rejects (errors : list Value) order :
  order ≡ₚ seq 0 (length errors) →
  firstSuccess_on ThisPromise (Rejected <$> errors) order
  = Normal (Some (Rejected (VArray errors))).
Proof.
  intros Hperm. destruct (decide (errors = [])) as [->|Hne].
  { apply Permutation_nil_r in Hperm as ->. reflexivity. }
  assert (0 < length errors) as Hpos by (destruct errors; [done | simpl; lia]).
  set (arr := Rejected <$> errors).
  assert (length arr = length errors) as Hlen by apply length_fmap.
  assert (∀ i, i ∈ order → i < length errors) as Hrange.
  { intros i Hi. rewrite Hperm in Hi. apply elem_of_seq in Hi. lia. }
  assert (∀ i e, errors !! i = Some e → arr !! i = Some (Rejected e)) as Harr.
  { intros i e Hi. unfold arr. by rewrite list_lookup_fmap, Hi. }
  unfold firstSuccess_on, static_all, all_run. simpl.
  rewrite length_map, Hlen.
  rewrite (joined_fulfilled arr order).
  - simpl. rewrite swap_fulfilled. do 4 f_equal.
    etrans; [|apply omap_id_Some]. f_equal.
    apply list_eq. intros k.
    destruct (errors !! k) as [e|] eqn:Hk.
    + rewrite list_lookup_fmap, Hk. simpl. apply slot_filled.
      * rewrite Hperm. apply elem_of_seq. apply lookup_lt_Some in Hk. lia.
      * by apply Harr.
      * simpl. rewrite length_replicate. by apply lookup_lt_Some in Hk.
    + rewrite list_lookup_fmap, Hk. simpl. apply lookup_ge_None.
      rewrite slots_length. simpl. rewrite length_replicate.
      by apply lookup_ge_None in Hk.
  - simpl. destruct (length errors); [lia | done].
  - simpl. by rewrite Hperm, length_seq.
  - done.
  - intros i Hi. specialize (Hrange i Hi).
    destruct (lookup_lt_is_Some_2 errors i Hrange) as [e He].
    exists e. by apply Harr.
Qed.

End WithReceiver.

(** * Further properties *)

(** ** The sequencer: what it resolves to *)

Section SequencerResults.
Context {St : Type}.
Implicit Types (w : World St) (task : TaskSource St).
Implicit Types (tasks rest : list (TaskSource St)).
Implicit Types (ret results vals : list Value).

Lemma sync_loop_values tasks seedValue ret w (r : Value) w' evs :
  sync_loop tasks seedValue ret w = (Fulfilled r, w', evs) →
  ∃ vals,
    r = VArray (ret ++ vals)
    ∧ length vals = length tasks
    ∧ (∀ i v, tasks !! i = Some (TValue v) → vals !! i = Some v)
    ∧ (∀ i o, tasks !! i = Some (TPromise o) →
         ∃ v, o = Fulfilled v ∧ vals !! i = Some v).
Proof.
  revert ret w evs. induction tasks as [|task rest IH]; intros ret w evs Hrun.
  - injection Hrun as <- _ _. exists []. rewrite app_nil_r.
    split_and!; try done; intros i ? Hi; by rewrite lookup_nil in Hi.
  - rewrite sync_loop_cons in Hrun.
    destruct (run_task task seedValue ret w) as [[[x|e] w1] ev1] eqn:Htask;
      [|done].
    destruct (sync_loop rest seedValue (ret ++ [x]) w1) as [[o w2] ev2] eqn:Hrest.
    injection Hrun as -> -> _.
    destruct (IH _ _ _ Hrest) as (vals & -> & Hlen & Hvalues & Hpromises).
    exists (x :: vals). rewrite <- app_assoc. split_and!; [done | by simpl; rewrite Hlen | |].
    + intros [|i] v Hi; [|by apply Hvalues].
      simpl in Hi. injection Hi as ->. by injection Htask as ->.
    + intros [|i] o Hi; [|by apply Hpromises].
      simpl in Hi. injection Hi as ->. injection Htask as -> _ _. by exists x.
Qed.

(** X1: when [Promise.sync] resolves, it resolves to an array with one entry
    per task, in which a plain value sits at the index it had in the list
    and a promise was fulfilled with the entry at its index. *)
Theorem sync_results_aligned tasks seedValue w (r : Value) w' evs :
  Promise_sync tasks seedValue w = (Fulfilled r, w', evs) →
  ∃ results,
    r = VArray results
    ∧ length results = length tasks
    ∧ (∀ i v, tasks !! i = Some (TValue v) → results !! i = Some v)
    ∧ (∀ i o, tasks !! i = Some (TPromise o) →
         ∃ v, o = Fulfilled v ∧ results !! i = Some v).
Proof. intros Hrun. by apply (sync_loop_values _ _ [] _ _ _ _ Hrun). Qed.

Lemma sync_loop_without_functions tasks seedValue ret w :
  Forall (λ task, match task with TFun _ => False | _ => True end) tasks →
  ∃ o, sync_loop tasks seedValue ret w = (o, w, []).
Proof.
  intros Hno. revert ret.
  induction Hno as [|task rest Htask _ IH]; intros ret; [by eexists|].
  rewrite sync_loop_cons.
  destruct task as [f|[x|e]|v]; [done | | by eexists |]; simpl.
  - destruct (IH (ret ++ [x])) as [o ->]. by eexists.
  - destruct (IH (ret ++ [v])) as [o ->]. by eexists.
Qed.

(** X2: on a list that holds no function, [Promise.sync] calls nothing, waits
    for no timer and leaves the world as it is, whether it resolves or
    rejects. *)
Theorem sync_without_functions tasks seedValue w :
  Forall (λ task, match task with TFun _ => False | _ => True end) tasks →
  ∃ o, Promise_sync tasks seedValue w = (o, w, []).
Proof. apply sync_loop_without_functions. Qed.

(** X3: the second argument of [Promise.sync] has no effect: two calls that
    differ in the seed value only give the same outcome, the same world
    and the same events. *)
Theorem sync_seed_unused tasks (seed1 seed2 : Value) w :
  Promise_sync tasks seed1 w = Promise_sync tasks seed2 w.
Proof. apply sync_loop_seed. Qed.

(** X5: [.sync(callback)] on a promise fulfilled with something that is not an
    array: the callback is called once, on the value and the index [0]
    only, and the promise settles as that call does; the result is not put
    in an array. *)
Theorem prototype_sync_not_array (cb : UserFn St) (v : Value) w :
  (∀ elems, v ≠ VArray elems) →
  Promise_prototype_sync (Fulfilled v) (invoke cb) w
  = let '(o, w1) := cb [v; VNum 0] w in (o, w1, [EvCall [v; VNum 0] o]).
Proof.
  intros Hv. unfold Promise_prototype_sync, await_then, settle, invoke.
  destruct v; try (by destruct (cb _ w) as [[x|e] w1]).
  by destruct (Hv elems).
Qed.

End SequencerResults.

Lemma sync_results_aligned_witness :
  Promise_sync mixed_tasks VUndefined world_empty
  = (Fulfilled (VArray [VStr "a"; VNum 1; VNum 1]), world_empty,
     [EvCall [VNum 1; VNum 2] (Fulfilled (VNum 1))])
  ∧ ∃ results,
      VArray [VStr "a"; VNum 1; VNum 1] = VArray results
      ∧ length results = length mixed_tasks
      ∧ (∀ i v, mixed_tasks !! i = Some (TValue v) → results !! i = Some v)
      ∧ (∀ i o, mixed_tasks !! i = Some (TPromise o) →
           ∃ v, o = Fulfilled v ∧ results !! i = Some v).
Proof.
  split; [reflexivity|].
  apply (sync_results_aligned mixed_tasks VUndefined world_empty _ world_empty
           [EvCall [VNum 1; VNum 2] (Fulfilled (VNum 1))]).
  reflexivity.
Defined.

Lemma sync_without_functions_witness :
  Forall (λ task : TaskSource nat,
            match task with TFun _ => False | _ => True end)
    [TValue (VNum 1); TPromise (Rejected (VStr "no")); TValue (VNum 3)]
  ∧ ∃ o,
      Promise_sync
        [TValue (VNum 1); TPromise (Rejected (VStr "no")); TValue (VNum 3)]
        VUndefined world_empty
      = (o, world_empty, []).
Proof.
  assert (Forall (λ task : TaskSource nat,
                    match task with TFun _ => False | _ => True end)
            [TValue (VNum 1); TPromise (Rejected (VStr "no")); TValue (VNum 3)])
    as Hno by (repeat constructor).
  split; [exact Hno|]. apply (sync_without_functions _ VUndefined world_empty Hno).
Defined.

Lemma prototype_sync_not_array_witness :
  (∀ elems, VStr "jon" ≠ VArray elems)
  ∧ Promise_prototype_sync (Fulfilled (VStr "jon")) (invoke identity) world_empty
    = (Fulfilled (VStr "jon"), world_empty,
       [EvCall [VStr "jon"; VNum 0] (Fulfilled (VStr "jon"))]).
Proof.
  split; [done|].
  apply (prototype_sync_not_array identity (VStr "jon") world_empty). done.
Defined.

(** ** Chains: rejection, delay and override *)

Section Chains.
Context {St : Type}.
Implicit Types (w : World St) (this : Outcome) (e d : Value).

(** A rejected promise goes through every chained operation as it is: the
    callback, the printer and the timer are not used, the world is not
    changed, and the result is rejected with the same error. *)
Theorem rejected_receiver_passes e w (ret : Value) (time : Z)
    (str : PrintText St) (printer Promise_printer : option (SyncFn St))
    (console_log console_warn : SyncFn St) (starter : Starter St)
    (stringify : Value → string) (order : list nat)
    (callback : Callable St) (options : positive) :
  Promise_prototype_returns (Rejected e) ret w = (Rejected e, w, [])
  ∧ Promise_prototype_sleep (Rejected e) time w = (Rejected e, w, [])
  ∧ Promise_prototype_print (Rejected e) str printer Promise_printer
      console_log w = (Rejected e, w, [])
  ∧ Promise_prototype_map (Rejected e) starter console_warn stringify order w
    = (Some (Rejected e), w, [])
  ∧ Promise_prototype_sync (Rejected e) callback w = (Rejected e, w, [])
  ∧ Promise_prototype_retry (Rejected e) callback (Some options) w
    = Some (mkRun (Rejected e) [] w []).
Proof. split_and!; reflexivity. Qed.

(** X6: [.sleep(t).returns(x)] and [.returns(x).sleep(t)] are the same: on a
    fulfilled promise both resolve to [x] after one wait of [t], whatever
    the value before; on a rejected promise neither waits. *)
Theorem sleep_returns_commute this (t : Z) (x : Value) w :
  chain (Promise_prototype_sleep this t)
    (λ p, Promise_prototype_returns p x) w
  = chain (Promise_prototype_returns this x)
      (λ p, Promise_prototype_sleep p t) w
  ∧ chain (Promise_prototype_sleep this t)
      (λ p, Promise_prototype_returns p x) w
    = match this with
      | Fulfilled _ => (Fulfilled x, w, [EvSleep t])
      | Rejected e => (Rejected e, w, [])
      end.
Proof. by destruct this. Qed.

(** X7: [print] hands the value on: the promise it returns is fulfilled with
    the value it received, whatever the printer returns, or rejected with
    what the last call threw; it never has another value. *)
Theorem print_keeps_value d (str : PrintText St)
    (printer Promise_printer : option (SyncFn St)) (console_log : SyncFn St) w :
  match Promise_prototype_print (Fulfilled d) str printer Promise_printer
          console_log w with
  | (Fulfilled v, _, _) => v = d
  | (Rejected e, _, evs) => ∃ args, last evs = Some (EvCall args (Rejected e))
  end.
Proof.
  unfold Promise_prototype_print, await_then, settle, call_sync.
  destruct str as [f|v].
  - destruct (f [d] w) as [[t|e] w1]; [|by eexists].
    destruct (choose_printer _ _ _ [t] w1) as [[x|e] w2]; [done | by eexists].
  - destruct (choose_printer _ _ _ [v] w) as [[x|e] w2]; [done | by eexists].
Qed.

(** X8: the text function of [print] is called on the value, and what it
    returns is what the printer is called on, once; the printer is the
    one given, else [Promise.printer], else [console.log]. *)
Theorem print_text_function d (f : SyncFn St)
    (printer Promise_printer : option (SyncFn St)) (console_log : SyncFn St)
    (t x : Value) w w1 w2 :
  f [d] w = (Normal t, w1) →
  choose_printer printer Promise_printer console_log [t] w1 = (Normal x, w2) →
  Promise_prototype_print (Fulfilled d) (TextFun f) printer Promise_printer
    console_log w
  = (Fulfilled d, w2,
     [EvCall [d] (Fulfilled t); EvCall [t] (Fulfilled x)]).
Proof.
  intros Hf Hp. unfold Promise_prototype_print, await_then, settle, call_sync.
  by rewrite Hf, Hp.
Qed.

(** X9: when the text function throws, the printer is not called and the
    promise is rejected with what was thrown. *)
Theorem print_text_function_throws d (f : SyncFn St) e
    (printer Promise_printer : option (SyncFn St)) (console_log : SyncFn St)
    w w1 :
  f [d] w = (Throw e, w1) →
  Promise_prototype_print (Fulfilled d) (TextFun f) printer Promise_printer
    console_log w
  = (Rejected e, w1, [EvCall [d] (Rejected e)]).
Proof.
  intros Hf. unfold Promise_prototype_print, await_then, settle, call_sync.
  by rewrite Hf.
Qed.

End Chains.

Lemma print_text_function_witness :
  new_value_text [VNum 2] world_empty = (Normal (VStr "New Value = 2"), world_empty)
  ∧ choose_printer None (Some quiet_printer) sync_throws
      [VStr "New Value = 2"] world_empty
    = (Normal VUndefined, world_empty)
  ∧ Promise_prototype_print (Fulfilled (VNum 2)) (TextFun new_value_text)
      None (Some quiet_printer) sync_throws world_empty
    = (Fulfilled (VNum 2), world_empty,
       [EvCall [VNum 2] (Fulfilled (VStr "New Value = 2"));
        EvCall [VStr "New Value = 2"] (Fulfilled VUndefined)]).
Proof.
  split_and!; [reflexivity | reflexivity |].
  apply (print_text_function (VNum 2) new_value_text None (Some quiet_printer)
           sync_throws (VStr "New Value = 2") VUndefined
           world_empty world_empty world_empty);
    reflexivity.
Defined.

Lemma print_text_function_throws_witness :
  sync_throws [VNum 2] world_empty = (Throw (VNum 2), world_empty)
  ∧ Promise_prototype_print (Fulfilled (VNum 2)) (TextFun sync_throws)
      (Some quiet_printer) None quiet_printer world_empty
    = (Rejected (VNum 2), world_empty, [EvCall [VNum 2] (Rejected (VNum 2))]).
Proof.
  split; [reflexivity|].
  apply (print_text_function_throws (VNum 2) sync_throws (VNum 2)
           (Some quiet_printer) None quiet_printer world_empty world_empty).
  reflexivity.
Defined.

(** ** The fan-out [map] *)

Lemma swap_outcome_involutive (o : Outcome) :
  swap_outcome ThisPromise (swap_outcome ThisPromise o) = o.
Proof. by destruct o. Qed.

Lemma map_swap_involutive (ps : list Outcome) :
  map (swap_outcome ThisPromise) (map (swap_outcome ThisPromise) ps) = ps.
Proof.
  induction ps as [|o ps IH]; [done|]. simpl.
  by rewrite swap_outcome_involutive, IH.
Qed.

Lemma map_swap_rejected (vs : list Value) :
  map (swap_outcome ThisPromise) (Rejected <$> vs) = Fulfilled <$> vs.
Proof. induction vs as [|v vs IH]; [done|]. csimpl. by rewrite IH. Qed.

Lemma first_success_swapped (ps : list Outcome) (order : list nat) :
  first_success (map (swap_outcome ThisPromise) ps) order
  = first_rejection ps order.
Proof.
  induction order as [|i order IH]; [done|]. simpl.
  rewrite lookup_swapped, IH. by destruct (ps !! i) as [[v|e]|].
Qed.

(** [Promise.all] on promises that are all fulfilled: the array of their
    values, in index order, in whatever order they settle. *)
Lemma all_run_fulfilled (vs : list Value) (order : list nat) :
  order ≡ₚ seq 0 (length vs) →
  all_run (Fulfilled <$> vs) order = Some (Fulfilled (VArray vs)).
Proof.
  intros Hperm.
  pose proof (firstSuccess_on_Promise_rejects vs order Hperm) as Hall.
  unfold firstSuccess_on, static_all in Hall. simpl in Hall.
  rewrite map_swap_rejected in Hall.
  destruct (all_run (Fulfilled <$> vs) order) as [[x|e]|]; [|done..].
  simpl in Hall. rewrite swap_fulfilled in Hall. by injection Hall as ->.
Qed.

(** [Promise.all] when one of the promises fails: the error of the first
    to fail, in the order of settlement. *)
Lemma all_run_rejected (ps : list Outcome) (order : list nat) (e : Value) :
  NoDup order →
  (∀ i, i ∈ order → i < length ps) →
  first_rejection ps order = Some e →
  all_run ps order = Some (Rejected e).
Proof.
  intros Hnodup Hrange Hfirst.
  pose proof (firstSuccess_on_Promise_resolves
                (map (swap_outcome ThisPromise) ps) order e Hnodup) as Hall.
  rewrite length_map, first_success_swapped in Hall.
  specialize (Hall Hrange Hfirst).
  unfold firstSuccess_on, static_all in Hall. simpl in Hall.
  rewrite map_swap_involutive in Hall.
  destruct (all_run ps order) as [[x|e']|]; [done| |done].
  simpl in Hall. rewrite swap_rejected in Hall. by injection Hall as ->.
Qed.

Section FanOut.
Context {St : Type}.
Implicit Types (w : World St) (cb : Starter St) (console_warn : SyncFn St).
Implicit Types (elems pre post all vs : list Value) (os : list Outcome).
Implicit Types (stringify : Value → string) (order : list nat).

Lemma array_map_cons cb all (i : nat) (x : Value) elems w :
  array_map cb all i (x :: elems) w
  = let '(c, w1) := cb [x; VNum (Z.of_nat i); VArray all] w in
    match c with
    | Throw e =>
        (Throw e, w1, [EvCall [x; VNum (Z.of_nat i); VArray all] (Rejected e)])
    | Normal o =>
        let '(cs, w2, ev2) := array_map cb all (S i) elems w1 in
        (match cs with
         | Normal os => Normal (o :: os)
         | Throw e => Throw e
         end, w2, EvCall [x; VNum (Z.of_nat i); VArray all] o :: ev2)
    end.
Proof.
  simpl. unfold call_start.
  by destruct (cb _ w) as [[o|e] w1].
Qed.

(** The calls of [arr.map(callback)]: one per element, in index order,
    up to and including the first that throws. *)
Lemma array_map_calls cb all (i : nat) elems w :
  match array_map cb all i elems w with
  | (Normal os, _, evs) =>
      length os = length elems ∧ evs = map_calls all i elems os
  | (Throw e, _, evs) =>
      ∃ os x,
        elems !! length os = Some x
        ∧ evs = map_calls all i elems os
                ++ [EvCall [x; VNum (Z.of_nat (i + length os)); VArray all]
                      (Rejected e)]
  end.
Proof.
  revert i w. induction elems as [|x elems IH]; intros i w; [done|].
  rewrite array_map_cons. destruct (cb _ w) as [[o|e] w1].
  - specialize (IH (S i) w1).
    destruct (array_map cb all (S i) elems w1) as [[[os|e] w2] ev2].
    + destruct IH as [Hlen ->]. simpl. by rewrite Hlen.
    + destruct IH as (os & y & Hy & ->). exists (o :: os), y.
      split; [done|]. simpl. by rewrite Nat.add_succ_r.
  - exists [], x. split; [done|]. simpl. by rewrite Nat.add_0_r.
Qed.

Lemma array_map_app cb all (i : nat) pre post w os w1 ev1 :
  array_map cb all i pre w = (Normal os, w1, ev1) →
  array_map cb all i (pre ++ post) w
  = let '(cs, w2, ev2) := array_map cb all (i + length pre) post w1 in
    (match cs with
     | Normal os' => Normal (os ++ os')
     | Throw e => Throw e
     end, w2, ev1 ++ ev2).
Proof.
  revert i w os ev1. induction pre as [|x pre IH]; intros i w os ev1 Hpre.
  - injection Hpre as <- <- <-. simpl. rewrite Nat.add_0_r.
    by destruct (array_map cb all i post w) as [[[os'|e] w2] ev2].
  - rewrite <- app_comm_cons, array_map_cons. rewrite array_map_cons in Hpre.
    destruct (cb _ w) as [[o|e] wx]; [|done].
    destruct (array_map cb all (S i) pre wx) as [[[os1|e] w2] ev2] eqn:Hrest;
      [|done].
    injection Hpre as <- -> <-. rewrite (IH _ _ _ _ Hrest).
    simpl. rewrite Nat.add_succ_r.
    by destruct (array_map cb all (S (i + length pre)) post w1)
      as [[[os'|e] w3] ev3].
Qed.

Lemma array_map_fulfilled cb all (i : nat) elems w :
  (∀ args w0, ∃ v w1, cb args w0 = (Normal (Fulfilled v), w1)) →
  ∃ vs w1,
    array_map cb all i elems w
    = (Normal (Fulfilled <$> vs), w1, map_calls all i elems (Fulfilled <$> vs))
    ∧ length vs = length elems.
Proof.
  intros Hcb. revert i w. induction elems as [|x elems IH]; intros i w.
  - by exists [], w.
  - rewrite array_map_cons.
    destruct (Hcb [x; VNum (Z.of_nat i); VArray all] w) as (v & wx & ->).
    destruct (IH (S i) wx) as (vs & w1 & -> & Hlen).
    exists (v :: vs), w1. split; [done|]. simpl. by rewrite Hlen.
Qed.

(** X10: [map] on an array, with a callback whose results are all fulfilled:
    the callback is called on every element, in index order, with the
    element, its index and the array; the promise resolves to the array of
    the results, in index order, in whatever order they settle. *)
Theorem map_resolves_in_index_order cb console_warn stringify order elems w :
  (∀ args w0, ∃ v w1, cb args w0 = (Normal (Fulfilled v), w1)) →
  order ≡ₚ seq 0 (length elems) →
  ∃ vs w1,
    Promise_prototype_map (Fulfilled (VArray elems)) cb console_warn
      stringify order w
    = (Some (Fulfilled (VArray vs)), w1,
       map_calls elems 0 elems (Fulfilled <$> vs))
    ∧ length vs = length elems.
Proof.
  intros Hcb Hperm.
  destruct (array_map_fulfilled cb elems 0 elems w Hcb) as (vs & w1 & Hrun & Hlen).
  exists vs, w1. split; [|done].
  unfold Promise_prototype_map, static_all. rewrite Hrun. simpl.
  rewrite all_run_fulfilled; [done|]. by rewrite Hlen.
Qed.

(** X11: [map] on an array, when the call of the callback on one element
    throws: the elements after it are not visited, and the promise is
    rejected with what was thrown. *)
Theorem map_callback_throws cb console_warn stringify order pre (x : Value)
    post (e : Value) w os w1 ev1 w2 :
  array_map cb (pre ++ x :: post) 0 pre w = (Normal os, w1, ev1) →
  cb [x; VNum (Z.of_nat (length pre)); VArray (pre ++ x :: post)] w1
  = (Throw e, w2) →
  Promise_prototype_map (Fulfilled (VArray (pre ++ x :: post))) cb
    console_warn stringify order w
  = (Some (Rejected e), w2,
     ev1 ++ [EvCall [x; VNum (Z.of_nat (length pre)); VArray (pre ++ x :: post)]
               (Rejected e)]).
Proof.
  intros Hpre Hx. unfold Promise_prototype_map.
  rewrite (array_map_app _ _ _ _ _ _ _ _ _ Hpre), array_map_cons. simpl.
  by rewrite Hx.
Qed.

(** X12: [map] on an array, when no call throws but a result is rejected: the
    callback has been called on every element all the same, and the
    promise is rejected with the error of the first result to fail, in
    the order of settlement. *)
Theorem map_rejects_with_first_rejection cb console_warn stringify order
    elems os (e : Value) w w1 evs :
  array_map cb elems 0 elems w = (Normal os, w1, evs) →
  NoDup order →
  (∀ i, i ∈ order → i < length elems) →
  first_rejection os order = Some e →
  Promise_prototype_map (Fulfilled (VArray elems)) cb console_warn
    stringify order w
  = (Some (Rejected e), w1, map_calls elems 0 elems os)
  ∧ length os = length elems.
Proof.
  intros Hrun Hnodup Hrange Hfirst.
  pose proof (array_map_calls cb elems 0 elems w) as Hcalls.
  rewrite Hrun in Hcalls. destruct Hcalls as [Hlen ->]. split; [|done].
  unfold Promise_prototype_map, static_all. rewrite Hrun. simpl.
  rewrite (all_run_rejected os order e); [done | done | | done].
  by rewrite Hlen.
Qed.

(** X14: [map] on a value that is not an array: after the warning, the
    callback is called once, on the value alone, and the promise settles
    as that call does; the result is not put in an array. *)
Theorem map_not_array cb console_warn stringify order (v x : Value) w w1 :
  (∀ elems, v ≠ VArray elems) →
  console_warn [VStr (map_warning stringify v)] w = (Normal x, w1) →
  Promise_prototype_map (Fulfilled v) cb console_warn stringify order w
  = let '(r, w2) := cb [v] w1 in
    let o := match r with Normal o => o | Throw e => Rejected e end in
    (Some o, w2,
     [EvCall [VStr (map_warning stringify v)] (Fulfilled x); EvCall [v] o]).
Proof.
  intros Hv Hwarn. unfold Promise_prototype_map, call_sync, call_start.
  destruct v; try (rewrite Hwarn; by destruct (cb _ w1) as [[o|e] w2]).
  by destruct (Hv elems).
Qed.

End FanOut.

(** ** The retry engine: bounds, frame and diagnostics *)

Section RetryFurther.
Context {St : Type}.
Implicit Types (w : World St) (f : UserFn St) (fn : Callable St).
Implicit Types (o : RetryOptions) (options l : positive).

Lemma retry_calls_bounded f options (fuel : nat) errs0 w (r : RetryRun St) :
  retry fuel (invoke f) options errs0 w = Some r →
  length (List.filter is_call (events r)) ≤ Z.to_nat (remaining options w).
Proof.
  revert errs0 w r. induction fuel as [|fuel IH]; intros errs0 w r Hrun; [done|].
  simpl in Hrun. unfold remaining.
  destruct (heap w !! options) as [o|] eqn:Hw; [|injection Hrun as <-; simpl; lia].
  case_bool_decide as Ht; [injection Hrun as <-; simpl; lia|].
  unfold invoke at 1 in Hrun.
  destruct (f _ w) as [[v|e] w1]; [injection Hrun as <-; simpl; lia|].
  simpl in Hrun.
  destruct (retry fuel _ _ _ _) as [r'|] eqn:Hrec; [|done].
  injection Hrun as <-. apply IH in Hrec. simpl.
  assert (Z.to_nat (remaining options
            (assign_times options (default 1%Z (times o) - 1)
               (if default false (printErrors o)
                then console_error
                       (default "" (errorPrefix o) +:+ "Retry loop failed:") e w1
                else w1)))
          ≤ Z.to_nat (default 1%Z (times o) - 1)) as Hnext.
  { unfold remaining, assign_times. simpl. rewrite lookup_alter_eq.
    destruct (default false (printErrors o)); simpl;
      destruct (heap w1 !! options); simpl; lia. }
  lia.
Qed.

(** X15: for an options object whose count is an integer up to
    [exact_limit] in magnitude (or is left out), and however the callable
    behaves, even when it writes to the options object itself,
    [Promise.retry] settles after at most that many calls: none when the
    count is zero or less, and at least one otherwise.  The count that the
    next attempt reads is the one that this attempt has written. *)
Theorem retry_attempts_bounded f options w o :
  heap w !! options = Some o →
  (- exact_limit ≤ default 1 (times o) ≤ exact_limit)%Z →
  ∃ r,
    Promise_retry (invoke f) options w = Some r
    ∧ length (List.filter is_call (events r))
      ≤ Z.to_nat (default 1%Z (times o))
    ∧ ((0 < default 1 (times o))%Z →
       1 ≤ length (List.filter is_call (events r))).
Proof.
  intros Hw Hbound.
  destruct (Promise_retry_settles (invoke f) options w) as [r Hrun].
  exists r. split; [done|]. split.
  - pose proof (retry_calls_bounded _ _ _ _ _ _ Hrun) as Hcalls.
    unfold remaining in Hcalls. by rewrite Hw in Hcalls.
  - intros Hpos. unfold Promise_retry, remaining in Hrun. rewrite Hw in Hrun.
    simpl in Hrun. rewrite Hw, bool_decide_eq_false_2 in Hrun by lia.
    unfold invoke at 1 in Hrun.
    destruct (f _ w) as [[v|e] w1]; [injection Hrun as <-; simpl; lia|].
    simpl in Hrun. destruct (retry _ _ _ _ _) as [r'|]; [|done].
    injection Hrun as <-. simpl. lia.
Qed.

Lemma retry_frame f options l (fuel : nat) errs0 w (r : RetryRun St) :
  l ≠ options →
  preserves l f →
  retry fuel (invoke f) options errs0 w = Some r →
  heap (final r) !! l = heap w !! l.
Proof.
  intros Hne Hf. revert errs0 w r.
  induction fuel as [|fuel IH]; intros errs0 w r Hrun; [done|].
  simpl in Hrun.
  destruct (heap w !! options) as [o|] eqn:Hw; [|by injection Hrun as <-].
  case_bool_decide as Ht; [by injection Hrun as <-|].
  unfold invoke at 1 in Hrun. specialize (Hf [VNum (default 1%Z (times o))] w).
  destruct (f _ w) as [[v|e] w1]; [by injection Hrun as <-|].
  simpl in Hrun, Hf.
  destruct (retry fuel _ _ _ _) as [r'|] eqn:Hrec; [|done].
  injection Hrun as <-. apply IH in Hrec. simpl. rewrite Hrec, <- Hf.
  unfold assign_times. simpl. rewrite lookup_alter_ne by done.
  by destruct (default false (printErrors o)).
Qed.

(** X16: [Promise.retry] writes to the options object it was given and to no
    other: an object that the callable leaves alone is, after the call,
    as it was before. *)
Theorem retry_writes_only_options f options l w :
  l ≠ options →
  preserves l f →
  ∃ r,
    Promise_retry (invoke f) options w = Some r
    ∧ heap (final r) !! l = heap w !! l.
Proof.
  intros Hne Hf.
  destruct (Promise_retry_settles (invoke f) options w) as [r Hrun].
  exists r. split; [done|]. by apply (retry_frame _ _ _ _ _ _ _ Hne Hf Hrun).
Qed.

(** X17: an options object is used up by a call that exhausts it: a second
    [Promise.retry] on the same object, with any callable, rejects at once
    without calling it. *)
Theorem retry_options_spent f fn options w o (r : RetryRun St) (x : Value) :
  heap w !! options = Some o →
  preserves options f →
  Promise_retry (invoke f) options w = Some r →
  outcome r = Rejected x →
  ∃ r2 message,
    Promise_retry fn options (final r) = Some r2
    ∧ outcome r2 = Rejected (VError "Error" message)
    ∧ events r2 = []
    ∧ final r2 = final r.
Proof.
  intros Hw Hf Hrun Hout.
  destruct (Promise_retry_run f options w o Hf Hw)
    as (r' & errs & last & Hrun' & _ & _ & _ & Hfinal & Hout').
  rewrite Hrun in Hrun'. injection Hrun' as <-. rewrite Hout in Hout'.
  destruct Hout' as (_ & Hlen & _).
  set (o' := match errs with
             | [] => o
             | _ :: _ => set_times (default 1%Z (times o) - Z.of_nat (length errs)) o
             end) in Hfinal.
  assert (default 1%Z (times o') ≤ 0)%Z as Hspent.
  { unfold o'. destruct errs as [|e errs]; simpl in *; lia. }
  unfold Promise_retry, remaining. rewrite Hfinal. simpl. rewrite Hfinal.
  rewrite bool_decide_eq_true_2 by done. by eexists _, _.
Qed.

Lemma retry_console f options (fuel : nat) errs0 w o (r : RetryRun St) :
  silent f →
  preserves options f →
  heap w !! options = Some o →
  retry fuel (invoke f) options errs0 w = Some r →
  ∃ errs,
    collected r = errs0 ++ errs
    ∧ console (final r)
      = console w ++ (if default false (printErrors o)
                      then retry_report o <$> errs
                      else []).
Proof.
  intros Hsilent Hf. revert errs0 w o r.
  induction fuel as [|fuel IH]; intros errs0 w o r Hw Hrun; [done|].
  simpl in Hrun. rewrite Hw in Hrun.
  case_bool_decide as Ht.
  { injection Hrun as <-. exists []. simpl. rewrite app_nil_r. split; [done|].
    destruct (default false (printErrors o)); simpl; by rewrite app_nil_r. }
  unfold invoke at 1 in Hrun.
  specialize (Hsilent [VNum (default 1%Z (times o))] w).
  specialize (Hf [VNum (default 1%Z (times o))] w).
  destruct (f _ w) as [[v|e] w1]; simpl in Hsilent, Hf.
  { injection Hrun as <-. exists []. simpl. rewrite app_nil_r, Hsilent.
    split; [done|].
    destruct (default false (printErrors o)); simpl; by rewrite app_nil_r. }
  simpl in Hrun.
  destruct (retry fuel _ _ _ _) as [r'|] eqn:Hrec; [|done].
  injection Hrun as <-.
  apply (IH _ _ (set_times (default 1%Z (times o) - 1) o)) in Hrec
    as (errs & Hcol & Hconsole).
  - exists (e :: errs). simpl in *. split; [by rewrite Hcol, <- app_assoc|].
    rewrite Hconsole. destruct (default false (printErrors o)); simpl.
    + by rewrite Hsilent, <- app_assoc.
    + by rewrite Hsilent.
  - unfold assign_times. simpl. rewrite lookup_alter_eq.
    destruct (default false (printErrors o)); simpl; by rewrite Hf, Hw.
Qed.

(** X18: with [printErrors] set, each failed attempt sends one report to
    [console.error], the prefix followed by [Retry loop failed:] together
    with the error, in the order of the failures; without it nothing is
    sent.  (The callable is taken not to write to the console itself.) *)
Theorem retry_prints_errors f options w o :
  silent f →
  preserves options f →
  heap w !! options = Some o →
  ∃ r,
    Promise_retry (invoke f) options w = Some r
    ∧ console (final r)
      = console w ++ (if default false (printErrors o)
                      then retry_report o <$> collected r
                      else []).
Proof.
  intros Hsilent Hf Hw.
  destruct (Promise_retry_settles (invoke f) options w) as [r Hrun].
  exists r. split; [done|].
  destruct (retry_console _ _ _ _ _ _ _ Hsilent Hf Hw Hrun) as (errs & -> & ->).
  done.
Qed.

(** ** The chained retry *)

Lemma map_events_after (g : Event → Event) (evs : list Event) (r : RetryRun St) :
  map_events g (after evs r) = after (g <$> evs) (map_events g r).
Proof. unfold map_events, after. simpl. by rewrite fmap_app. Qed.

Lemma retry_with_first (cb : UserFn St) (val : Value) options (fuel : nat)
    errs0 w :
  retry fuel (retry_task (invoke cb) val) options errs0 w
  = map_events (chained_call val)
      <$> retry fuel (invoke (with_first val cb)) options errs0 w.
Proof.
  revert errs0 w. induction fuel as [|fuel IH]; intros errs0 w; [done|].
  simpl. destruct (heap w !! options) as [o|]; [|done].
  case_bool_decide; [done|].
  unfold retry_task at 1, invoke at 1 3, with_first at 1.
  destruct (cb _ w) as [[v|e] w1]; [done|]. simpl. rewrite IH.
  destruct (retry fuel _ _ _ _) as [r|]; [|done]. simpl.
  by rewrite map_events_after.
Qed.

(** X19: [.retry(callback, options)] on a promise fulfilled with [val] is
    [Promise.retry] of the callback with [val] as its first argument:
    the same outcome, the same errors and the same world, each call being
    on [val] and the number of attempts left. *)
Theorem prototype_retry_fixes_value (cb : UserFn St) (val : Value) options w :
  Promise_prototype_retry (Fulfilled val) (invoke cb) (Some options) w
  = map_events (chained_call val)
      <$> Promise_retry (invoke (with_first val cb)) options w.
Proof. apply retry_with_first. Qed.

(** X20: [.retry(callback)] without options, on a promise fulfilled with
    [val]: the callback is called once, on [val] and [1]; when the call
    fails, 500 ms are waited for and the promise is rejected with the
    exhaustion error of this one failure.  The objects that existed
    before the call are as they were. *)
Theorem prototype_retry_default_options (cb : UserFn St) (val : Value) w :
  (∀ l, preserves l cb) →
  ∃ r out,
    Promise_prototype_retry (Fulfilled val) (invoke cb) None w = Some r
    ∧ events r
      = EvCall [val; VNum 1] out
        :: match out with Fulfilled _ => [] | Rejected _ => [EvSleep 500] end
    ∧ outcome r
      = match out with
        | Fulfilled v => Fulfilled v
        | Rejected e => Rejected (VError "Error" (exhausted_message "" [e]))
        end
    ∧ ∀ l o, heap w !! l = Some o → heap (final r) !! l = Some o.
Proof.
  intros Hcb. unfold Promise_prototype_retry, new_options, Promise_retry, remaining.
  set (l := fresh (dom (heap w))).
  assert (heap w !! l = None) as Hl.
  { apply not_elem_of_dom. apply is_fresh. }
  simpl. rewrite !lookup_insert_eq. simpl.
  unfold retry_task at 1, invoke at 1.
  match goal with |- context [cb ?args ?w0] =>
    pose proof (λ l', Hcb l' args w0) as Hkeep;
    destruct (cb args w0) as [[v|e] w1] end; simpl in Hkeep.
  - eexists _, (Fulfilled v). split_and!; try done.
    intros l' o Hl'. simpl. rewrite Hkeep. simpl.
    rewrite lookup_insert_ne; [done | congruence].
  - simpl. rewrite lookup_alter_eq, Hkeep. simpl. rewrite lookup_insert_eq. simpl.
    eexists _, (Rejected e). split_and!; try done.
    intros l' o Hl'. simpl. rewrite lookup_alter_ne by congruence.
    rewrite Hkeep. simpl. rewrite lookup_insert_ne; [done | congruence].
Qed.

End RetryFurther.

(** ** The further properties on the examples *)

Lemma start_identity_fulfils {St : Type} (args : list Value) (w0 : World St) :
  ∃ v w1, start_identity args w0 = (Normal (Fulfilled v), w1).
Proof. by eexists _, _. Qed.

Lemma map_resolves_in_index_order_witness :
  (∀ args (w0 : World nat),
     ∃ v w1, start_identity args w0 = (Normal (Fulfilled v), w1))
  ∧ [2; 0; 1] ≡ₚ seq 0 (length [VNum 1; VNum 2; VNum 3])
  ∧ ∃ vs w1,
      Promise_prototype_map (Fulfilled (VArray [VNum 1; VNum 2; VNum 3]))
        start_identity quiet_printer ToString [2; 0; 1] world_empty
      = (Some (Fulfilled (VArray vs)), w1,
         map_calls [VNum 1; VNum 2; VNum 3] 0 [VNum 1; VNum 2; VNum 3]
           (Fulfilled <$> vs))
      ∧ length vs = length [VNum 1; VNum 2; VNum 3].
Proof.
  assert ([2; 0; 1] ≡ₚ seq 0 (length [VNum 1; VNum 2; VNum 3])) as Hperm
    by (apply (bool_decide_unpack _); vm_compute; exact I).
  split_and!; [apply start_identity_fulfils | exact Hperm |].
  apply (map_resolves_in_index_order start_identity quiet_printer ToString
           [2; 0; 1] [VNum 1; VNum 2; VNum 3] world_empty
           start_identity_fulfils Hperm).
Defined.

Lemma map_callback_throws_witness :
  array_map throw_on_null ([VNum 1] ++ VNull :: [VNum 3]) 0 [VNum 1] world_empty
  = (Normal [Fulfilled (VNum 1)], world_empty,
     [EvCall [VNum 1; VNum 0; VArray [VNum 1; VNull; VNum 3]]
        (Fulfilled (VNum 1))])
  ∧ throw_on_null
      [VNull; VNum (Z.of_nat (length [VNum 1]));
       VArray ([VNum 1] ++ VNull :: [VNum 3])] world_empty
    = (Throw (VStr "null"), world_empty)
  ∧ Promise_prototype_map (Fulfilled (VArray ([VNum 1] ++ VNull :: [VNum 3])))
      throw_on_null quiet_printer ToString [0; 1; 2] world_empty
    = (Some (Rejected (VStr "null")), world_empty,
       [EvCall [VNum 1; VNum 0; VArray [VNum 1; VNull; VNum 3]]
          (Fulfilled (VNum 1))]
       ++ [EvCall [VNull; VNum (Z.of_nat (length [VNum 1]));
                   VArray ([VNum 1] ++ VNull :: [VNum 3])]
             (Rejected (VStr "null"))]).
Proof.
  split_and!; [reflexivity | reflexivity |].
  apply (map_callback_throws throw_on_null quiet_printer ToString [0; 1; 2]
           [VNum 1] VNull [VNum 3] (VStr "null") world_empty
           [Fulfilled (VNum 1)] world_empty _ world_empty);
    reflexivity.
Defined.

Lemma map_rejects_with_first_rejection_witness :
  array_map reject_on_null [VNull; VNum 2; VNull] 0 [VNull; VNum 2; VNull]
    world_empty
  = (Normal [Rejected (VStr "null"); Fulfilled (VNum 2); Rejected (VStr "null")],
     world_empty,
     map_calls [VNull; VNum 2; VNull] 0 [VNull; VNum 2; VNull]
       [Rejected (VStr "null"); Fulfilled (VNum 2); Rejected (VStr "null")])
  ∧ NoDup [1; 2; 0]
  ∧ (∀ i, i ∈ [1; 2; 0] → i < length [VNull; VNum 2; VNull])
  ∧ first_rejection
      [Rejected (VStr "null"); Fulfilled (VNum 2); Rejected (VStr "null")]
      [1; 2; 0]
    = Some (VStr "null")
  ∧ Promise_prototype_map (Fulfilled (VArray [VNull; VNum 2; VNull]))
      reject_on_null quiet_printer ToString [1; 2; 0] world_empty
    = (Some (Rejected (VStr "null")), world_empty,
       map_calls [VNull; VNum 2; VNull] 0 [VNull; VNum 2; VNull]
         [Rejected (VStr "null"); Fulfilled (VNum 2); Rejected (VStr "null")])
    ∧ length [Rejected (VStr "null"); Fulfilled (VNum 2); Rejected (VStr "null")]
      = length [VNull; VNum 2; VNull].
Proof.
  assert (NoDup [1; 2; 0]) as Hnodup
    by (apply (bool_decide_unpack _); vm_compute; exact I).
  assert (∀ i, i ∈ [1; 2; 0] → i < length [VNull; VNum 2; VNull]) as Hrange.
  { apply Forall_forall. repeat constructor. }
  split; [reflexivity|]. split; [exact Hnodup|]. split; [exact Hrange|].
  split; [reflexivity|].
  eapply (map_rejects_with_first_rejection reject_on_null quiet_printer ToString
            [1; 2; 0] [VNull; VNum 2; VNull] _ (VStr "null")
            world_empty world_empty);
    [reflexivity | exact Hnodup | exact Hrange | reflexivity].
Defined.

Lemma map_not_array_witness :
  (∀ elems, VNum 5 ≠ VArray elems)
  ∧ quiet_printer [VStr (map_warning ToString (VNum 5))] world_empty
    = (Normal VUndefined, world_empty)
  ∧ Promise_prototype_map (Fulfilled (VNum 5)) start_identity quiet_printer
      ToString [] world_empty
    = (Some (Fulfilled (VNum 5)), world_empty,
       [EvCall
          [VStr "Argument passed to Promise.map is not an array 5, will run as .then()"]
          (Fulfilled VUndefined);
        EvCall [VNum 5] (Fulfilled (VNum 5))]).
Proof.
  split_and!; [done | reflexivity |].
  apply (map_not_array start_identity quiet_printer ToString [] (VNum 5)
           VUndefined world_empty world_empty); [done | reflexivity].
Defined.

Lemma retry_writes_only_options_witness :
  2%positive ≠ 1%positive
  ∧ preserves (St:=nat) 2 throws_argument
  ∧ ∃ r,
      Promise_retry (invoke throws_argument) 1 world_two = Some r
      ∧ heap (final r) !! 2%positive = heap world_two !! 2%positive.
Proof.
  split_and!; [done | apply throws_argument_preserves |].
  apply (retry_writes_only_options throws_argument 1 2 world_two);
    [done | apply throws_argument_preserves].
Defined.

Lemma retry_options_spent_witness :
  ∃ r,
    heap (world_times 2) !! 1%positive
    = Some (mkOptions (Some 2%Z) None None None)
    ∧ preserves (St:=nat) 1 throws_argument
    ∧ Promise_retry (invoke throws_argument) 1 (world_times 2) = Some r
    ∧ outcome r
      = Rejected (VError "Error"
          ("Exhausted retry loops:" +:+ LF +:+ "2" +:+ LF +:+ "1"))
    ∧ ∃ r2 message,
        Promise_retry (invoke identity) 1 (final r) = Some r2
        ∧ outcome r2 = Rejected (VError "Error" message)
        ∧ events r2 = []
        ∧ final r2 = final r.
Proof.
  eexists. split_and!;
    [reflexivity | apply throws_argument_preserves | reflexivity | reflexivity |].
  eapply (retry_options_spent throws_argument (invoke identity) 1 (world_times 2));
    [reflexivity | apply throws_argument_preserves | reflexivity | reflexivity].
Defined.

Lemma throws_argument_silent {St : Type} : silent (St:=St) throws_argument.
Proof. by intros args w. Qed.

Lemma retry_prints_errors_witness :
  silent (St:=nat) throws_argument
  ∧ preserves (St:=nat) 1 throws_argument
  ∧ heap world_printing !! 1%positive
    = Some (mkOptions (Some 2%Z) None (Some true) (Some "job: "))
  ∧ ∃ r,
      Promise_retry (invoke throws_argument) 1 world_printing = Some r
      ∧ console (final r)
        = console world_printing
          ++ (if default false
                     (printErrors
                        (mkOptions (Some 2%Z) None (Some true) (Some "job: ")))
              then retry_report
                     (mkOptions (Some 2%Z) None (Some true) (Some "job: "))
                   <$> collected r
              else []).
Proof.
  split_and!;
    [apply throws_argument_silent | apply throws_argument_preserves
    | reflexivity |].
  apply (retry_prints_errors throws_argument 1 world_printing
           (mkOptions (Some 2%Z) None (Some true) (Some "job: ")));
    [apply throws_argument_silent | apply throws_argument_preserves
    | reflexivity].
Defined.

(** The reports of the run above, as they arrive. *)
Example retry_prints_errors_run :
  ∃ r,
    Promise_retry (invoke throws_argument) 1 world_printing = Some r
    ∧ console (final r)
      = [("job: Retry loop failed:", VNum 2); ("job: Retry loop failed:", VNum 1)].
Proof. eexists. split; [reflexivity|]. by vm_compute. Qed.

Lemma prototype_retry_default_options_witness :
  (∀ l, preserves (St:=nat) l throws_argument)
  ∧ ∃ r out,
      Promise_prototype_retry (Fulfilled (VStr "jon")) (invoke throws_argument)
        None (world_times 2)
      = Some r
      ∧ events r
        = EvCall [VStr "jon"; VNum 1] out
          :: match out with Fulfilled _ => [] | Rejected _ => [EvSleep 500] end
      ∧ outcome r
        = match out with
          | Fulfilled v => Fulfilled v
          | Rejected e => Rejected (VError "Error" (exhausted_message "" [e]))
          end
      ∧ ∀ l o, heap (world_times 2) !! l = Some o → heap (final r) !! l = Some o.
Proof.
  split; [intros l; apply throws_argument_preserves|].
  apply (prototype_retry_default_options throws_argument (VStr "jon")
           (world_times 2)).
  intros l. apply throws_argument_preserves.
Defined.

(** ** The two revisions *)

Section Revisions.
Context {St : Type}.
Implicit Types (w : World St) (f cb : UserFn St) (us : list (UserTask St)).

Lemma sync_loop_revisions us (seedValue : Value) (ret : list Value) w :
  Forall uses_first_only us →
  Earlier.sync_loop (task_of <$> us) ret w
  = let '(o, w', evs) := sync_loop (task_of <$> us) seedValue ret w in
    (o, w', first_argument <$> evs).
Proof.
  intros Hus. revert ret w.
  induction Hus as [|u us Hu _ IH]; intros ret w; [done|].
  rewrite !fmap_cons, sync_loop_cons. simpl Earlier.sync_loop.
  unfold await_then.
  assert (Earlier.run_task (task_of u) ret w
          = let '(o, w1, ev1) := run_task (task_of u) seedValue ret w in
            (o, w1, first_argument <$> ev1)) as ->.
  { destruct u as [f|o|v]; [|done..]. simpl task_of. rewrite run_task_fun.
    simpl. unfold invoke. rewrite (Hu [_; _] w). simpl.
    by destruct (f _ w) as [o w1]. }
  destruct (run_task (task_of u) seedValue ret w) as [[[x|e] w1] ev1]; [|done].
  rewrite IH.
  destruct (sync_loop (task_of <$> us) seedValue (ret ++ [x]) w1)
    as [[o w2] ev2].
  by rewrite fmap_app.
Qed.

(** X21: the later [Promise.sync] agrees with the earlier one on tasks whose
    functions look at their first argument only: the same outcome, the
    same world and the same calls in the same order, the later calls
    carrying the index as well. *)
Theorem sync_revisions_agree us (seedValue : Value) w :
  Forall uses_first_only us →
  Earlier.Promise_sync (task_of <$> us) w
  = let '(o, w', evs) := Promise_sync (task_of <$> us) seedValue w in
    (o, w', first_argument <$> evs).
Proof. apply sync_loop_revisions. Qed.

Lemma retry_revisions f options (fuel : nat) (errs0 : list Value) w :
  nullary f →
  Earlier.retry fuel (invoke f) options errs0 w
  = map_events no_argument <$> retry fuel (invoke f) options errs0 w.
Proof.
  intros Hf. revert errs0 w. induction fuel as [|fuel IH]; intros errs0 w; [done|].
  simpl. destruct (heap w !! options) as [o|]; [|done].
  case_bool_decide; [done|].
  unfold invoke at 1 3. rewrite (Hf [VNum _] w).
  destruct (f [] w) as [[v|e] w1]; [done|]. simpl. rewrite IH.
  destruct (retry fuel _ _ _ _) as [r|]; [|done]. simpl.
  by rewrite map_events_after.
Qed.

(** X22: the later [Promise.retry] agrees with the earlier one on a function
    that looks at no argument: the same outcome, the same errors, the same
    world and the same attempts and waits, the later calls carrying the
    number of attempts left. *)
Theorem retry_revisions_agree f options w :
  nullary f →
  Earlier.Promise_retry (invoke f) options w
  = map_events no_argument <$> Promise_retry (invoke f) options w.
Proof. apply retry_revisions. Qed.

Lemma invoke_first_only cb (args : list Value) w :
  first_only cb →
  invoke cb args w
  = let '(o, w1) := cb [arg 0 args] w in (o, w1, [EvCall args o]).
Proof. intros Hcb. unfold invoke. by rewrite (Hcb args w). Qed.

Lemma prototype_sync_loop_revisions cb (elems ret : list Value) w :
  first_only cb →
  Earlier.sync_loop (map (Earlier.sync_task (invoke cb)) elems) ret w
  = let '(o, w', evs) :=
      sync_loop (map (sync_task (invoke cb)) elems) VUndefined ret w in
    (o, w', first_argument <$> evs).
Proof.
  intros Hcb. revert ret w. induction elems as [|x elems IH]; intros ret w; [done|].
  rewrite !fmap_cons, sync_loop_cons. simpl Earlier.sync_loop.
  unfold await_then, sync_task at 1, Earlier.sync_task at 1.
  rewrite run_task_fun. cbn [Earlier.run_task].
  rewrite !(invoke_first_only cb _ w Hcb). unfold arg. simpl.
  destruct (cb [x] w) as [[v|e] w1]; [|done].
  rewrite IH.
  by destruct (sync_loop _ VUndefined (ret ++ [v]) w1) as [[o w2] ev2].
Qed.

(** X23: the later [.sync(callback)] agrees with the earlier one on a callback
    that looks at its first argument only, on arrays and on other values
    alike. *)
Theorem prototype_sync_revisions_agree cb (this : Outcome) w :
  first_only cb →
  Earlier.Promise_prototype_sync this (invoke cb) w
  = let '(o, w', evs) := Promise_prototype_sync this (invoke cb) w in
    (o, w', first_argument <$> evs).
Proof.
  intros Hcb. unfold Earlier.Promise_prototype_sync, Promise_prototype_sync.
  unfold await_then, settle. destruct this as [v|e]; [|done].
  assert (invoke cb [v] w
          = let '(o, w', evs) := invoke cb [v; VNum 0] w in
            (o, w', first_argument <$> evs)) as Hone.
  { rewrite !(invoke_first_only cb _ w Hcb). unfold arg. simpl.
    by destruct (cb [v] w) as [o w1]. }
  destruct v as [ | |b|n|s|name message|elems];
    [rewrite Hone; by destruct (invoke cb [_; _] w) as [[o w1] ev1] ..|].
  unfold Earlier.Promise_sync, Promise_sync.
  rewrite (prototype_sync_loop_revisions cb elems [] w Hcb).
  by destruct (sync_loop _ VUndefined [] w) as [[o w1] ev1].
Qed.

End Revisions.

Lemma identity_first_only {St : Type} : first_only (St:=St) identity.
Proof. by intros args w. Qed.

Lemma worksFifthTime_nullary : nullary worksFifthTime.
Proof. by intros args w. Qed.

Lemma sync_revisions_agree_witness :
  Forall uses_first_only [UValue (VStr "a"); UFun (St:=nat) identity; UFun identity]
  ∧ Earlier.Promise_sync
      (task_of <$> [UValue (VStr "a"); UFun identity; UFun identity])
      world_empty
    = let '(o, w', evs) :=
        Promise_sync
          (task_of <$> [UValue (VStr "a"); UFun identity; UFun identity])
          (VNum 5) world_empty in
      (o, w', first_argument <$> evs).
Proof.
  assert (Forall uses_first_only
            [UValue (VStr "a"); UFun (St:=nat) identity; UFun identity]) as Hus.
  { repeat constructor; apply identity_first_only. }
  split; [exact Hus|].
  apply (sync_revisions_agree _ (VNum 5) world_empty Hus).
Defined.

Lemma retry_revisions_agree_witness :
  nullary worksFifthTime
  ∧ Earlier.Promise_retry (invoke worksFifthTime) 1 (world_times 8)
    = map_events no_argument
        <$> Promise_retry (invoke worksFifthTime) 1 (world_times 8).
Proof.
  split; [apply worksFifthTime_nullary|].
  apply (retry_revisions_agree worksFifthTime 1 (world_times 8)
           worksFifthTime_nullary).
Defined.

Lemma prototype_sync_revisions_agree_witness :
  first_only (St:=nat) identity
  ∧ Earlier.Promise_prototype_sync
      (Fulfilled (VArray [VStr "jon"; VStr "ally"])) (invoke identity) world_empty
    = let '(o, w', evs) :=
        Promise_prototype_sync
          (Fulfilled (VArray [VStr "jon"; VStr "ally"])) (invoke identity)
          world_empty in
      (o, w', first_argument <$> evs).
Proof.
  split; [apply identity_first_only|].
  apply (prototype_sync_revisions_agree identity
           (Fulfilled (VArray [VStr "jon"; VStr "ally"])) world_empty
           identity_first_only).
Defined.

(** ** The sequencer: which functions are called *)

Lemma sublist_fmap_S (l1 l2 : list nat) :
  l1 `sublist_of` l2 → (S <$> l1) `sublist_of` (S <$> l2).
Proof.
  induction 1 as [|x l1 l2 _ IH|x l1 l2 _ IH]; csimpl;
    [constructor | by apply sublist_skip | by apply sublist_cons].
Qed.

Section SequencerCalls.
Context {St : Type}.
Implicit Types (w : World St) (us : list (UserTask St)) (ret : list Value).

Lemma sync_loop_calls us (seedValue : Value) ret w :
  ∃ idxs,
    idxs `sublist_of` seq 0 (length us)
    ∧ Forall2
        (λ i ev, ∃ f prev out,
           us !! i = Some (UFun f)
           ∧ ev = EvCall [prev; VNum (Z.of_nat (length ret + i))] out)
        idxs (sync_loop (task_of <$> us) seedValue ret w).2.
Proof.
  revert ret w. induction us as [|u us IH]; intros ret w.
  { exists []. split; [constructor | by constructor]. }
  rewrite fmap_cons, sync_loop_cons.
  assert (∀ (x : Value) w1,
            ∃ idxs,
              idxs `sublist_of` seq 1 (length us)
              ∧ Forall2
                  (λ i ev, ∃ f prev out,
                     (u :: us) !! i = Some (UFun f)
                     ∧ ev = EvCall [prev; VNum (Z.of_nat (length ret + i))] out)
                  idxs (sync_loop (task_of <$> us) seedValue (ret ++ [x]) w1).2)
    as Hrest.
  { intros x w1. destruct (IH (ret ++ [x]) w1) as (idxs & Hsub & Hcalls).
    exists (S <$> idxs). split.
    - rewrite <- fmap_S_seq. by apply sublist_fmap_S.
    - apply Forall2_fmap_l. eapply Forall2_impl; [exact Hcalls|].
      intros i ev (f & prev & out & Hi & ->). exists f, prev, out.
      split; [done|]. rewrite length_app. simpl.
      by replace (length ret + 1 + i) with (length ret + S i) by lia. }
  destruct u as [f|o|v]; simpl task_of.
  - rewrite run_task_fun. unfold invoke at 1.
    destruct (f _ w) as [[x|e] w1].
    + destruct (Hrest x w1) as (idxs & Hsub & Hcalls).
      destruct (sync_loop _ seedValue (ret ++ [x]) w1) as [[o w2] ev2].
      exists (0 :: idxs). split; [by apply sublist_skip|].
      simpl. constructor; [|done].
      eexists f, _, _. split; [done|]. by rewrite Nat.add_0_r.
    + exists [0]. split; [apply sublist_skip, sublist_nil_l|].
      simpl. constructor; [|constructor].
      eexists f, _, _. split; [done|]. by rewrite Nat.add_0_r.
  - simpl. destruct o as [x|e].
    + destruct (Hrest x w) as (idxs & Hsub & Hcalls).
      destruct (sync_loop _ seedValue (ret ++ [x]) w) as [[o w2] ev2].
      exists idxs. split; [by apply sublist_cons | done].
    + exists []. split; [apply sublist_nil_l | constructor].
  - simpl. destruct (Hrest v w) as (idxs & Hsub & Hcalls).
    destruct (sync_loop _ seedValue (ret ++ [v]) w) as [[o w2] ev2].
    exists idxs. split; [by apply sublist_cons | done].
Qed.

(** X4: the calls of a run of [Promise.sync] are calls of functions of the
    list, each with its own index as second argument, at increasing
    indices: no function is called twice or out of its turn, and what is
    not a function is not called. *)
Theorem sync_calls_in_order us (seedValue : Value) w :
  ∃ idxs,
    idxs `sublist_of` seq 0 (length us)
    ∧ Forall2
        (λ i ev, ∃ f prev out,
           us !! i = Some (UFun f)
           ∧ ev = EvCall [prev; VNum (Z.of_nat i)] out)
        idxs (Promise_sync (task_of <$> us) seedValue w).2.
Proof. apply (sync_loop_calls us seedValue [] w). Qed.

End SequencerCalls.

(** ** The fan-out [map]: pending results *)

Lemma first_rejection_None (ps : list Outcome) (order : list nat) :
  first_rejection ps order = None →
  ∀ i e, i ∈ order → ps !! i ≠ Some (Rejected e).
Proof.
  induction order as [|j order IH]; intros Hnone i e Hi.
  - by apply elem_of_nil in Hi.
  - simpl in Hnone. apply elem_of_cons in Hi as [->|Hi].
    + by destruct (ps !! j) as [[v|e']|].
    + apply IH; [|done]. by destruct (ps !! j) as [[v|e']|].
Qed.

(** [Promise.all] while fewer promises have settled than it was given,
    none of them with a failure: still pending. *)
Lemma all_run_pending (ps : list Outcome) (order : list nat) :
  length order < length ps →
  first_rejection ps order = None →
  all_run ps order = None.
Proof.
  intros Hlen Hnone. unfold all_run.
  destruct (joined_pending (map (swap_outcome ThisPromise) ps) order
              (all_start (length ps))) as [Hj _].
  - simpl. destruct (length ps); [lia | done].
  - done.
  - intros i v Hi. rewrite lookup_swapped.
    pose proof (first_rejection_None ps order Hnone i v Hi) as Hps.
    destruct (ps !! i) as [[x|e]|]; simpl;
      [by rewrite swap_fulfilled | rewrite swap_rejected; congruence | done].
  - by rewrite map_swap_involutive in Hj.
Qed.

Section FanOutPending.
Context {St : Type}.

(** X13: [map] on an array does not settle while a result of the callback is
    still pending, unless one has failed: with fewer results settled than
    there are elements, all of them fulfilled, the promise is pending. *)
Theorem map_stays_pending (cb : Starter St) (console_warn : SyncFn St)
    (stringify : Value → string) (order : list nat) (elems : list Value)
    (os : list Outcome) (w w1 : World St) (evs : list Event) :
  array_map cb elems 0 elems w = (Normal os, w1, evs) →
  length order < length elems →
  first_rejection os order = None →
  Promise_prototype_map (Fulfilled (VArray elems)) cb console_warn
    stringify order w
  = (None, w1, evs).
Proof.
  intros Hrun Hlen Hnone.
  pose proof (array_map_calls cb elems 0 elems w) as Hcalls.
  rewrite Hrun in Hcalls. destruct Hcalls as [Hos _].
  unfold Promise_prototype_map, static_all. rewrite Hrun. simpl.
  rewrite all_run_pending; [done | by rewrite Hos | done].
Qed.

End FanOutPending.

Lemma map_stays_pending_witness :
  array_map reject_on_null [VNum 1; VNull; VNum 3] 0 [VNum 1; VNull; VNum 3]
    world_empty
  = (Normal [Fulfilled (VNum 1); Rejected (VStr "null"); Fulfilled (VNum 3)],
     world_empty,
     map_calls [VNum 1; VNull; VNum 3] 0 [VNum 1; VNull; VNum 3]
       [Fulfilled (VNum 1); Rejected (VStr "null"); Fulfilled (VNum 3)])
  ∧ length [2; 0] < length [VNum 1; VNull; VNum 3]
  ∧ first_rejection
      [Fulfilled (VNum 1); Rejected (VStr "null"); Fulfilled (VNum 3)] [2; 0]
    = None
  ∧ Promise_prototype_map (Fulfilled (VArray [VNum 1; VNull; VNum 3]))
      reject_on_null quiet_printer ToString [2; 0] world_empty
    = (None, world_empty,
       map_calls [VNum 1; VNull; VNum 3] 0 [VNum 1; VNull; VNum 3]
         [Fulfilled (VNum 1); Rejected (VStr "null"); Fulfilled (VNum 3)]).
Proof.
  split_and!; [reflexivity | simpl; lia | reflexivity |].
  eapply (map_stays_pending reject_on_null quiet_printer ToString [2; 0]
            [VNum 1; VNull; VNum 3] _ world_empty world_empty);
    [reflexivity | simpl; lia | reflexivity].
Defined.

Lemma retry_attempts_bounded_witness :
  heap (world_times 2) !! 1%positive = Some (mkOptions (Some 2%Z) None None None)
  ∧ (- exact_limit ≤ 2 ≤ exact_limit)%Z
  ∧ (∃ r,
       Promise_retry (invoke resets_times) 1 (world_times 2) = Some r
       ∧ length (List.filter is_call (events r)) ≤ Z.to_nat 2
       ∧ ((0 < 2)%Z → 1 ≤ length (List.filter is_call (events r))))
  ∧ ∃ r,
      Promise_retry (invoke resets_times) 1 (world_times 2) = Some r
      ∧ events r
        = [EvCall [VNum 2] (Rejected (VStr "again")); EvSleep 500;
           EvCall [VNum 1] (Rejected (VStr "again")); EvSleep 500].
Proof.
  split_and!; [reflexivity | done | done | |].
  - apply (retry_attempts_bounded resets_times 1 (world_times 2)
             (mkOptions (Some 2%Z) None None None)); [reflexivity | done].
  - eexists. split; reflexivity.
Defined.
